(** * MockInterface: the in-memory adapter of storage-facade

    A shallow embedding of [src/index.ts] (current revision: the one that
    exports [defaultDelay] and [getBase]) and the properties of its
    specification.

    Layout of the development:
    - [Values]: JavaScript values behind references, and [structuredClone];
    - [JsMap]: the insertion-ordered [Map<string, unknown>];
    - [Mock]: the class [MockInterface], its synchronous methods, the
      [wait] harness, the asynchronous methods and the timer loop;
    - [Earlier]: the two methods that earlier revisions had otherwise;
    - [ValuesFacts], [JsMapFacts], [MockFacts]: the lemmas on each;
    - [Contract]: the properties of the specification. *)

From stdpp Require Import base list strings.
From Stdlib Require Import ZArith Lia.

Local Open Scope string_scope.
Local Open Scope list_scope.

(** ** Values, heap and structured clone *)

Module Values.

(** Objects live in a heap and are handled through references, so that two
    variables can alias one mutable object. A function stands for the
    values that the platform refuses to clone. *)
Abbreviation loc := nat.

Inductive val :=
  | VUndefined
  | VNull
  | VBool (b : bool)
  | VNum (n : Z)
  | VStr (s : string)
  | VRef (l : loc)
  | VFunction (name : string).

Inductive obj :=
  | OArray (elems : list val)
  | OObject (props : list (string * val)).

(** Allocation appends: the address of a new object is the length of the
    heap before the allocation. *)
Abbreviation heap := (list obj).

(** The serialized form of a value: the finite tree it unfolds to. This is
    the record that the structured-clone algorithm of the platform builds
    (StructuredSerialize) before it rebuilds a value from it
    (StructuredDeserialize). *)
Inductive data :=
  | DUndefined
  | DNull
  | DBool (b : bool)
  | DNum (n : Z)
  | DStr (s : string)
  | DArray (elems : list data)
  | DObject (props : list (string * data)).

(** [serialize n h v] reads the tree of [v] in [h], following at most [n]
    references in depth. It gives [None] on a function, on a dangling
    reference and when the depth runs out, which with [n] above the heap
    size means a cycle. *)
Fixpoint serialize (n : nat) (h : heap) (v : val) : option data :=
  match v with
  | VUndefined => Some DUndefined
  | VNull => Some DNull
  | VBool b => Some (DBool b)
  | VNum z => Some (DNum z)
  | VStr s => Some (DStr s)
  | VRef l =>
      match n with
      | O => None
      | S n' =>
          match h !! l with
          | None => None
          | Some (OArray vs) => DArray <$> mapM (serialize n' h) vs
          | Some (OObject ps) =>
              DObject <$> mapM (fun p => pair (fst p) <$> serialize n' h (snd p)) ps
          end
      end
  | VFunction _ => None
  end.

(** [deserialize d h] builds a fresh value for the tree [d]: children first,
    then the node itself at the end of the heap. *)
Fixpoint deserialize (d : data) (h : heap) : val * heap :=
  match d with
  | DUndefined => (VUndefined, h)
  | DNull => (VNull, h)
  | DBool b => (VBool b, h)
  | DNum z => (VNum z, h)
  | DStr s => (VStr s, h)
  | DArray ds =>
      let '(vs, h1) :=
        (fix elems (ds : list data) (h : heap) : list val * heap :=
           match ds with
           | [] => ([], h)
           | d :: ds' =>
               let '(v, h1) := deserialize d h in
               let '(vs, h2) := elems ds' h1 in
               (v :: vs, h2)
           end) ds h in
      (VRef (length h1), h1 ++ [OArray vs])
  | DObject ps =>
      let '(vs, h1) :=
        (fix props (ps : list (string * data)) (h : heap)
           : list (string * val) * heap :=
           match ps with
           | [] => ([], h)
           | (k, d) :: ps' =>
               let '(v, h1) := deserialize d h in
               let '(vs, h2) := props ps' h1 in
               ((k, v) :: vs, h2)
           end) ps h in
      (VRef (length h1), h1 ++ [OObject vs])
  end.

(** The same two loops, named, for the lemmas. *)
Fixpoint deserialize_elems (ds : list data) (h : heap) : list val * heap :=
  match ds with
  | [] => ([], h)
  | d :: ds' =>
      let '(v, h1) := deserialize d h in
      let '(vs, h2) := deserialize_elems ds' h1 in
      (v :: vs, h2)
  end.

Fixpoint deserialize_props (ps : list (string * data)) (h : heap)
  : list (string * val) * heap :=
  match ps with
  | [] => ([], h)
  | (k, d) :: ps' =>
      let '(v, h1) := deserialize d h in
      let '(vs, h2) := deserialize_props ps' h1 in
      ((k, v) :: vs, h2)
  end.

(** Depth of a tree, counted in references. *)
Fixpoint depth (d : data) : nat :=
  match d with
  | DArray ds => S (foldr (fun d m => Nat.max (depth d) m) O ds)
  | DObject ps => S (foldr (fun p m => Nat.max (depth (snd p)) m) O ps)
  | _ => O
  end.

(** Errors are JavaScript exceptions. [Error m] is [Error(m)] of the
    source; the other two are raised by the platform. *)
Inductive exn :=
  | Error (message : string)
  | DataCloneError
  | TypeError.

Inductive res (A : Type) :=
  | Ret (a : A)
  | Throw (e : exn).
Arguments Ret {A} a.
Arguments Throw {A} e.

(** A value is structurally copyable in a heap when it unfolds to a finite
    tree there. A tree in a heap of [n] objects is at most [n] deep, so
    the depth allowed here loses nothing ([serialize_copyable] below). *)
Definition copyable (h : heap) (v : val) (d : data) : Prop :=
  serialize (S (length h)) h v = Some d.

(** [structuredClone(v)]: a deep copy in fresh objects, or a
    [DataCloneError]. The model covers the values of the specification
    (numbers, strings, booleans, null, lists and string-keyed maps, nested
    finitely) and raises on the rest. It departs from the platform in two
    ways: the platform also copies cyclic graphs, where the model raises;
    and the platform keeps an object that is reached twice shared in the
    copy, where the model copies it once for each path. The tree that a
    value unfolds to is the same either way. *)
Definition structuredClone (v : val) (h : heap) : res (val * heap) :=
  match serialize (S (length h)) h v with
  | Some d => Ret (deserialize d h)
  | None => Throw DataCloneError
  end.

(** [h2] has every object of [h] at the same address. *)
Definition extends (h h2 : heap) : Prop :=
  forall l o, h !! l = Some o -> h2 !! l = Some o.

(** [h2] has the objects of [h] at the addresses from [lo] up to [hi]. *)
Definition agree_on (lo hi : nat) (h h2 : heap) : Prop :=
  forall l, lo <= l < hi -> h2 !! l = h !! l.

Definition max_depth (ds : list data) : nat :=
  foldr (fun d m => Nat.max (depth d) m) O ds.
Definition max_depth_props (ps : list (string * data)) : nat :=
  foldr (fun p m => Nat.max (depth (snd p)) m) O ps.

(** What [deserialize] builds: it only appends, at least one object per
    level of the tree; a reference it returns is new; and the tree can be
    read back from any heap that keeps the appended objects. *)
Definition rebuilt (d : data) : Prop :=
  forall h v h', deserialize d h = (v, h') ->
    (exists ext, h' = h ++ ext /\ depth d <= length ext) /\
    (forall l, v = VRef l -> length h <= l < length h') /\
    (forall h2, agree_on (length h) (length h') h' h2 ->
       serialize (depth d) h2 v = Some d).

End Values.

(** ** The insertion-ordered map *)

Module JsMap.
Import Values.

(** [Map<string, unknown>]: an association list in insertion order, one
    entry per key. *)
Abbreviation t := (list (string * val)).

(** [m.get(k)]: [undefined] when the key is absent. *)
Fixpoint get (k : string) (m : t) : val :=
  match m with
  | [] => VUndefined
  | (k', v) :: m' => if decide (k = k') then v else get k m'
  end.

(** [m.set(k, v)]: a present key keeps its place and takes the new value,
    a new key goes to the end. *)
Fixpoint set (k : string) (v : val) (m : t) : t :=
  match m with
  | [] => [(k, v)]
  | (k', v') :: m' =>
      if decide (k = k') then (k, v) :: m' else (k', v') :: set k v m'
  end.

(** [m.delete(k)]. *)
Definition delete (k : string) (m : t) : t :=
  filter (fun e => fst e <> k) m.

(** [m.clear()] and [m.size]. *)
Definition clear (m : t) : t := [].
Definition size (m : t) : Z := Z.of_nat (length m).

(** [Array.from(m)] is the list of entries itself; [a[i]] on an array is
    [undefined] unless [0 <= i < a.length]. *)
Definition index {A} (a : list A) (i : Z) : option A :=
  if decide (0 <= i)%Z then a !! Z.to_nat i else None.

Definition keys (m : t) : list string := fst <$> m.

End JsMap.

(** ** The adapter *)

Module Mock.
Import Values.

(** *** A state and exception monad

    A computation runs on a state and ends with a value or an exception;
    the effects made before a [throw] stay. *)
Definition M (S A : Type) : Type := S -> res A * S.

Definition ret {S A} (a : A) : M S A := fun s => (Ret a, s).
Definition throw {S A} (e : exn) : M S A := fun s => (Throw e, s).
Definition bind {S A B} (m : M S A) (f : A -> M S B) : M S B :=
  fun s =>
    match m s with
    | (Ret a, s') => f a s'
    | (Throw e, s') => (Throw e, s')
    end.
Definition gets {S A} (f : S -> A) : M S A := fun s => (Ret (f s), s).
Definition modify {S} (f : S -> S) : M S unit := fun s => (Ret tt, f s).

Notation "x <- m ;; k" := (bind m (fun x => k))
  (at level 100, m at next level, right associativity).
Notation "m ;;; k" := (bind m (fun _ => k))
  (at level 100, right associativity).

(** *** The class *)

Record MockInterface := {
  storageName : string;
  isDeleted : bool;
  storage : JsMap.t;
}.

(** What a method can touch: the heap and the fields of [this]. *)
Record store := {
  mem : heap;
  this : MockInterface;
}.

(** Modelled from the spec: the library-wide default name, a constant that
    [index.ts] imports from the storage-facade package. Its text is not in
    this repository, and nothing below depends on it. *)
Definition defaultStorageName : string := "storage".

Definition newMockInterface : MockInterface :=
  {| storageName := ""; isDeleted := false; storage := [] |}.

Definition StorageDeletedError : exn := Error "This Storage was deleted!".
Definition AdapterContractViolation : exn :=
  Error "'wait({...})': Use 'resolve' OR 'reject'!".

(** Field updates. *)
Definition set_storageName (n : string) (s : store) : store :=
  {| mem := mem s;
     this := {| storageName := n; isDeleted := isDeleted (this s);
                storage := storage (this s) |} |}.
Definition set_isDeleted (b : bool) (s : store) : store :=
  {| mem := mem s;
     this := {| storageName := storageName (this s); isDeleted := b;
                storage := storage (this s) |} |}.
Definition set_storage (m : JsMap.t) (s : store) : store :=
  {| mem := mem s;
     this := {| storageName := storageName (this s);
                isDeleted := isDeleted (this s); storage := m |} |}.

(** [structuredClone] as a computation on the store. *)
Definition clone (v : val) : M store val :=
  fun s =>
    match structuredClone v (mem s) with
    | Ret (v', h') => (Ret v', {| mem := h'; this := this s |})
    | Throw e => (Throw e, s)
    end.

(** *** Synchronous methods *)

Definition checkStorage : M store unit :=
  fun s => if isDeleted (this s) then throw StorageDeletedError s else ret tt s.

(** The result of [initSync] and the payload of the write promises is an
    instance of the facade's class [Ok]. *)
Inductive unknown :=
  | UVal (v : val)
  | UOk
  | UErr (e : exn).

Definition initSync (name : option string) : M store unknown :=
  modify (set_storageName (default defaultStorageName name)) ;;;
  ret UOk.

Definition getItemSync (key : string) : M store val :=
  checkStorage ;;;
  stored <- gets (fun s => JsMap.get key (storage (this s))) ;;
  clone stored.

Definition setItemSync (key : string) (value : val) : M store unit :=
  checkStorage ;;;
  copy <- clone value ;;
  modify (fun s => set_storage (JsMap.set key copy (storage (this s))) s).

Definition removeItemSync (key : string) : M store unit :=
  checkStorage ;;;
  modify (fun s => set_storage (JsMap.delete key (storage (this s))) s).

Definition clearSync : M store unit :=
  checkStorage ;;;
  modify (fun s => set_storage (JsMap.clear (storage (this s))) s).

Definition sizeSync : M store Z :=
  checkStorage ;;;
  gets (fun s => JsMap.size (storage (this s))).

(** [Array.from(this.storage)[index]?.[0]] *)
Definition keyOf (m : JsMap.t) (index : Z) : val :=
  match JsMap.index m index with
  | Some entry => VStr (fst entry)
  | None => VUndefined
  end.

Definition keySync (index : Z) : M store val :=
  checkStorage ;;;
  gets (fun s => keyOf (storage (this s)) index).

Definition deleteStorageSync : M store unit :=
  checkStorage ;;;
  modify (fun s => set_storage (JsMap.clear (storage (this s))) s) ;;;
  modify (set_isDeleted true).

(** *** The [wait] harness

    [wait(setup)] makes a promise and arms a timer; the body of the timer
    callback does the rest. A promise keeps the first outcome it is given:
    later calls of its [resolve] and [reject] functions do nothing. *)

Record DelaySetup := {
  resolve : option unknown;
  reject : option unknown;
  action : option (M store unit);
  delay : option Z;
}.

Inductive promise :=
  | Pending
  | Fulfilled (data : unknown)
  | Rejected (data : unknown).

Definition settle (outcome : promise) (p : promise) : promise :=
  match p with
  | Pending => outcome
  | _ => p
  end.

(** The callback runs on the store and on the promise it closes over. *)
Definition callResolve (d : unknown) : M (store * promise) unit :=
  modify (fun sp => (fst sp, settle (Fulfilled d) (snd sp))).
Definition callReject (d : unknown) : M (store * promise) unit :=
  modify (fun sp => (fst sp, settle (Rejected d) (snd sp))).
Definition lift {A} (m : M store A) : M (store * promise) A :=
  fun sp => let '(r, s') := m (fst sp) in (r, (s', snd sp)).

Definition when {S} (b : bool) (m : M S unit) : M S unit :=
  if b then m else ret tt.

(** [x !== undefined] on an optional field. *)
Definition isSet {A} (o : option A) : bool :=
  match o with
  | Some _ => true
  | None => false
  end.

(** The function given to [setTimeout] in [wait]. Nothing returns after
    the first [reject]: the checks, the action and the configured outcome
    follow it. *)
Definition timerCallback (setup : DelaySetup) : M (store * promise) unit :=
  deleted <- gets (fun sp => isDeleted (this (fst sp))) ;;
  when deleted (callReject (UErr StorageDeletedError)) ;;;
  let bothSet := isSet (resolve setup) && isSet (reject setup) in
  let bothNotSet := negb (isSet (resolve setup)) && negb (isSet (reject setup)) in
  if bothSet || bothNotSet then throw AdapterContractViolation
  else
    match action setup with
    | Some act => lift act
    | None => ret tt
    end ;;;
    match resolve setup with
    | Some d => callResolve d
    | None => ret tt
    end ;;;
    match reject setup with
    | Some d => callReject d
    | None => ret tt
    end.

(** One task per call of an asynchronous method: its armed timer, if any,
    and its promise. The number of a task is the handle the caller keeps. *)
Record task := {
  timer : option DelaySetup;
  result : promise;
}.

Record world := {
  st : store;
  tasks : list task;
}.

Definition spawn (t : task) (s : store) (ts : list task) : nat * world :=
  (length ts, {| st := s; tasks := ts ++ [t] |}).

(** The delay ([setup.delay], or a draw from [defaultDelay]) only decides
    when the timer fires among the other events; firing is an event of its
    own below. *)
Definition wait (setup : DelaySetup) (w : world) : nat * world :=
  spawn {| timer := Some setup; result := Pending |} (st w) (tasks w).

(** An [async] method whose body is [return this.wait({...})]: the
    descriptor is built first, on the store; an exception there rejects
    the promise of the method at once. *)
Definition async (body : M store DelaySetup) (w : world) : nat * world :=
  match body (st w) with
  | (Ret setup, s') => wait setup {| st := s'; tasks := tasks w |}
  | (Throw e, s') =>
      spawn {| timer := None; result := Rejected (UErr e) |} s' (tasks w)
  end.

(** *** Asynchronous methods *)

Definition initAsync (name : option string) : world -> nat * world :=
  async (ret {|
    action := Some (modify (set_storageName (default defaultStorageName name)));
    resolve := Some UOk; reject := None; delay := None |}).

Definition getItemAsync (key : string) : world -> nat * world :=
  async (
    stored <- gets (fun s => JsMap.get key (storage (this s))) ;;
    copy <- clone stored ;;
    ret {| resolve := Some (UVal copy); reject := None; action := None;
           delay := None |}).

Definition setItemAsync (key : string) (value : val) : world -> nat * world :=
  async (ret {|
    action := Some (
      copy <- clone value ;;
      modify (fun s => set_storage (JsMap.set key copy (storage (this s))) s));
    resolve := Some UOk; reject := None; delay := None |}).

Definition removeItemAsync (key : string) : world -> nat * world :=
  async (ret {|
    action := Some (
      modify (fun s => set_storage (JsMap.delete key (storage (this s))) s));
    resolve := Some UOk; reject := None; delay := None |}).

Definition clearAsync : world -> nat * world :=
  async (ret {|
    action := Some (
      modify (fun s => set_storage (JsMap.clear (storage (this s))) s));
    resolve := Some UOk; reject := None; delay := None |}).

Definition sizeAsync : world -> nat * world :=
  async (
    n <- gets (fun s => JsMap.size (storage (this s))) ;;
    ret {| resolve := Some (UVal (VNum n)); reject := None; action := None;
           delay := None |}).

Definition keyAsync (index : Z) : world -> nat * world :=
  async (
    k <- gets (fun s => keyOf (storage (this s)) index) ;;
    ret {| resolve := Some (UVal k); reject := None; action := None;
           delay := None |}).

Definition deleteStorageAsync : world -> nat * world :=
  async (ret {|
    action := Some (
      modify (fun s => set_storage (JsMap.clear (storage (this s))) s) ;;;
      modify (set_isDeleted true));
    resolve := Some UOk; reject := None; delay := None |}).

(** *** The timer loop *)

(** Timer [i] fires: its callback runs once, on the current store. The
    first component is how the callback ended; an exception there is
    uncaught and reaches neither the promise nor the caller. *)
Definition fire (i : nat) (w : world) : res unit * world :=
  match tasks w !! i with
  | Some {| timer := Some setup; result := p |} =>
      let '(r, sp) := timerCallback setup (st w, p) in
      (r, {| st := fst sp;
             tasks := <[i := {| timer := None; result := snd sp |}]> (tasks w) |})
  | _ => (Ret tt, w)
  end.

(** The calls of the plugin contract. *)
Inductive call :=
  | Init (name : option string)
  | GetItem (key : string)
  | SetItem (key : string) (value : val)
  | RemoveItem (key : string)
  | Clear
  | Size
  | KeyAt (index : Z)
  | DeleteStorage.

Definition void (m : M store unit) : M store unknown :=
  m ;;; ret (UVal VUndefined).

Definition callSync (c : call) : M store unknown :=
  match c with
  | Init name => initSync name
  | GetItem key => v <- getItemSync key ;; ret (UVal v)
  | SetItem key value => void (setItemSync key value)
  | RemoveItem key => void (removeItemSync key)
  | Clear => void clearSync
  | Size => n <- sizeSync ;; ret (UVal (VNum n))
  | KeyAt index => k <- keySync index ;; ret (UVal k)
  | DeleteStorage => void deleteStorageSync
  end.

Definition callAsync (c : call) : world -> nat * world :=
  match c with
  | Init name => initAsync name
  | GetItem key => getItemAsync key
  | SetItem key value => setItemAsync key value
  | RemoveItem key => removeItemAsync key
  | Clear => clearAsync
  | Size => sizeAsync
  | KeyAt index => keyAsync index
  | DeleteStorage => deleteStorageAsync
  end.

(** What can happen to one adapter: a synchronous call runs to its end, an
    asynchronous call arms a timer, an armed timer fires. Execution is
    single-threaded, so a run is a list of such events. *)
Inductive event :=
  | Sync (c : call)
  | Async (c : call)
  | Fire (i : nat).

Definition step (w : world) (e : event) : world :=
  match e with
  | Sync c =>
      {| st := snd (callSync c (st w)); tasks := tasks w |}
  | Async c => snd (callAsync c w)
  | Fire i => snd (fire i w)
  end.

Definition exec (es : list event) (w : world) : world :=
  foldl step w es.

(** A new adapter, with the objects the caller already has in [h]. *)
Definition initial (h : heap) : world :=
  {| st := {| mem := h; this := newMockInterface |}; tasks := [] |}.

Definition outcome (p : nat) (w : world) : option promise :=
  result <$> tasks w !! p.

Definition deleted (w : world) : bool := isDeleted (this (st w)).
Definition entries (w : world) : JsMap.t := storage (this (st w)).

(** *** Invariants of a run *)

(** Every stored value is a finite tree in the current heap. *)
Definition store_ok (s : store) : Prop :=
  Forall (fun e => exists d, copyable (mem s) (snd e) d) (storage (this s)).

(** What the methods and the actions of the adapter have in common: they
    only add objects, never unset the latch, and keep the stored values
    readable. *)
Definition preserving {A} (m : M store A) : Prop :=
  forall s,
    extends (mem s) (mem (snd (m s))) /\
    (isDeleted (this s) = true -> isDeleted (this (snd (m s))) = true) /\
    (store_ok s -> store_ok (snd (m s))).

Definition action_ok (act : M store unit) : Prop := preserving act.

(** The promise of an armed timer is still pending. *)
Definition task_ok (t : task) : Prop :=
  forall setup, timer t = Some setup ->
    result t = Pending /\
    (forall act, action setup = Some act -> action_ok act).

Definition world_ok (w : world) : Prop :=
  store_ok (st w) /\ Forall task_ok (tasks w).

(** Timer [p] has not fired yet; [setup] is its descriptor. *)
Definition armed (p : nat) (setup : DelaySetup) (w : world) : Prop :=
  timer <$> tasks w !! p = Some (Some setup).

(** The operations that the latch closes. *)
Definition guarded (c : call) : bool :=
  match c with
  | GetItem _ | SetItem _ _ | RemoveItem _ | Clear | Size | KeyAt _ => true
  | Init _ | DeleteStorage => false
  end.

(** Task [p] can only end rejected with the deletion error: its timer is
    still armed, or it has ended so. *)
Definition doomed (p : nat) (w : world) : Prop :=
  (exists setup, armed p setup w) \/
  outcome p w = Some (Rejected (UErr StorageDeletedError)).

(** The iterator that [size] and [keyAt] make: the caller asks [size()],
    then [keyAt(i)] for every [i] below the answer, from 0 up, and keeps
    the answers in that order. *)
Fixpoint keysFrom (index : Z) (count : nat) : M store (list val) :=
  match count with
  | O => ret []
  | S count' =>
      k <- keySync index ;;
      ks <- keysFrom (index + 1)%Z count' ;;
      ret (k :: ks)
  end.

Definition keysByIndex : M store (list val) :=
  n <- sizeSync ;;
  keysFrom 0%Z (Z.to_nat n).

(** A run of [setItem] calls, in the synchronous form. *)
Definition setItems (kvs : list (string * val)) : list event :=
  (fun kv => Sync (SetItem (fst kv) (snd kv))) <$> kvs.

(** A descriptor with exactly one outcome. *)
Definition wellFormed (setup : DelaySetup) : bool :=
  xorb (isSet (resolve setup)) (isSet (reject setup)).

(** The promise after the latch test of the callback, and after the
    configured outcome. *)
Definition preempted (s : store) (p : promise) : promise :=
  if isDeleted (this s) then settle (Rejected (UErr StorageDeletedError)) p
  else p.

Definition concluded (setup : DelaySetup) (p : promise) : promise :=
  let p1 :=
    match resolve setup with
    | Some d => settle (Fulfilled d) p
    | None => p
    end in
  match reject setup with
  | Some d => settle (Rejected d) p1
  | None => p1
  end.

End Mock.

(** ** Earlier revisions

    The file [src/index.ts] and the first half of [unnamed/part_000] are
    earlier revisions of the current [index.ts] (the second half of
    [unnamed/part_000]). Two methods of the revision in [part_000] differ
    from the current ones in what they do; they are kept here to tell the
    revisions apart. The oldest revision has the same [keySync] without
    the latch test, and no [deleteStorage] at all. *)

Module Earlier.
Import Values Mock.

Definition checkStorage : M store unit :=
  fun s =>
    if isDeleted (this s) then throw (Error "Storage is deleted") s
    else ret tt s.

(** [return Array.from(this.storage)[index][0];] where reading [[0]] of
    [undefined] is a [TypeError]. *)
Definition keySync (index : Z) : M store val :=
  checkStorage ;;;
  entry <- gets (fun s => JsMap.index (storage (this s)) index) ;;
  match entry with
  | Some e => ret (VStr (fst e))
  | None => throw TypeError
  end.

(** [this.checkStorage(); this.isDeleted = true;] and the map stays. *)
Definition deleteStorageSync : M store unit :=
  checkStorage ;;;
  modify (set_isDeleted true).

End Earlier.

(** ** Observations and runs *)

Module Observe.
Import Values Mock.

(** What a caller sees of [getItem(key)] up to deep equality: the tree of
    the value that the method returns. *)
Definition readItem (key : string) (s : store) : res data :=
  match getItemSync key s with
  | (Ret r, s') =>
      match serialize (S (length (mem s'))) (mem s') r with
      | Some d => Ret d
      | None => Throw DataCloneError
      end
  | (Throw e, _) => Throw e
  end.

(** The caller assigns to an object it holds: the object at [l] becomes
    [o]. Nothing of the adapter is called. *)
Definition write (l : loc) (o : obj) (w : world) : world :=
  {| st := {| mem := <[l := o]> (mem (st w)); this := this (st w) |};
     tasks := tasks w |}.

(** The calls that change the adapter, as opposed to those that read it. *)
Definition isWrite (c : call) : bool :=
  match c with
  | Init _ | SetItem _ _ | RemoveItem _ | Clear | DeleteStorage => true
  | GetItem _ | Size | KeyAt _ => false
  end.

(** A computation keeps a property of the store. *)
Definition keeping {A} (P : store -> Prop) (m : M store A) : Prop :=
  forall s, P s -> P (snd (m s)).

(** So does every action that waits for its timer. *)
Definition tasks_keeping (P : store -> Prop) (w : world) : Prop :=
  Forall (fun t => forall setup act,
            timer t = Some setup -> action setup = Some act -> keeping P act)
    (tasks w).

(** A run whose calls, in either form, are all among the allowed ones. *)
Definition calls_of (allowed : call -> Prop) (es : list event) : Prop :=
  Forall (fun e =>
            match e with
            | Sync c | Async c => allowed c
            | Fire _ => True
            end) es.

(** Every reference in the map is one that the adapter made itself, after
    the [base] objects the caller had at the start. *)
Definition private (base : nat) (s : store) : Prop :=
  base <= length (mem s) /\
  Forall (fun e => forall l, snd e = VRef l -> base <= l < length (mem s))
    (storage (this s)).

End Observe.

(** * Properties *)

(** ** Structured clone *)

Module ValuesFacts.
Import Values.

(** Induction on trees that reaches the children of a node. *)
Lemma data_nested_ind (P : data -> Prop) :
  P DUndefined -> P DNull -> (forall b, P (DBool b)) ->
  (forall n, P (DNum n)) -> (forall s, P (DStr s)) ->
  (forall ds, Forall P ds -> P (DArray ds)) ->
  (forall ps, Forall (fun p => P (snd p)) ps -> P (DObject ps)) ->
  forall d, P d.
Proof.
  intros Hu Hn Hb Hz Hs Ha Ho. fix IH 1.
  intros [ | | b | n | s | ds | ps];
    [apply Hu | apply Hn | apply Hb | apply Hz | apply Hs | | ].
  - apply Ha. revert ds. fix IHds 1.
    intros [|d ds]; constructor; [apply IH | apply IHds].
  - apply Ho. revert ps. fix IHps 1.
    intros [|[k d] ps]; constructor; [apply IH | apply IHps].
Qed.

Lemma deserialize_array ds h :
  deserialize (DArray ds) h =
  let '(vs, h1) := deserialize_elems ds h in
  (VRef (length h1), h1 ++ [OArray vs]).
Proof.
  simpl.
  match goal with |- (let '(_, _) := ?f ds h in _) = _ =>
    assert (E : forall ds h, f ds h = deserialize_elems ds h)
  end.
  { clear. induction ds as [|d ds IH]; intros h; simpl; [done|].
    destruct (deserialize d h). by rewrite IH. }
  by rewrite E.
Qed.

Lemma deserialize_object ps h :
  deserialize (DObject ps) h =
  let '(vs, h1) := deserialize_props ps h in
  (VRef (length h1), h1 ++ [OObject vs]).
Proof.
  simpl.
  match goal with |- (let '(_, _) := ?f ps h in _) = _ =>
    assert (E : forall ps h, f ps h = deserialize_props ps h)
  end.
  { clear. induction ps as [|[k d] ps IH]; intros h; simpl; [done|].
    destruct (deserialize d h). by rewrite IH. }
  by rewrite E.
Qed.

Lemma extends_refl h : extends h h.
Proof. by intros l o. Qed.

Lemma extends_app h ext : extends h (h ++ ext).
Proof. intros l o E. by apply lookup_app_l_Some. Qed.

Lemma extends_trans h1 h2 h3 : extends h1 h2 -> extends h2 h3 -> extends h1 h3.
Proof. intros A B l o E. auto. Qed.

Lemma extends_length h h2 : extends h h2 -> length h <= length h2.
Proof.
  intros E. destruct (decide (length h <= length h2)) as [|N]; [done|].
  destruct (lookup_lt_is_Some_2 h (length h2)) as [o Ho]; [lia|].
  apply E, lookup_lt_Some in Ho. lia.
Qed.

Lemma serialize_ref n h l :
  serialize (S n) h (VRef l) =
  match h !! l with
  | None => None
  | Some (OArray vs) => DArray <$> mapM (serialize n h) vs
  | Some (OObject ps) =>
      DObject <$> mapM (fun p => pair (fst p) <$> serialize n h (snd p)) ps
  end.
Proof. reflexivity. Qed.

(** More depth and more heap do not change what is read. *)
Lemma serialize_mono n : forall m h h2 v d,
  n <= m -> extends h h2 ->
  serialize n h v = Some d -> serialize m h2 v = Some d.
Proof.
  induction n as [|n IH]; intros m h h2 v d Hnm Hext E.
  - destruct v; simpl in E; try discriminate; by destruct m.
  - destruct v as [ | | | | | l | f]; try (by destruct m).
    destruct m as [|m]; [lia|]. rewrite serialize_ref in E |- *.
    destruct (h !! l) as [[vs|ps]|] eqn:El; [| |discriminate];
      rewrite (Hext _ _ El).
    + destruct (mapM (serialize n h) vs) as [ds|] eqn:Em; [|discriminate].
      simpl in E. injection E as <-.
      apply mapM_Some in Em. erewrite mapM_Some_2; [done|].
      eapply Forall2_impl; [exact Em|]. intros x y Hxy.
      eapply IH; [lia|exact Hext|exact Hxy].
    + destruct (mapM _ ps) as [ds|] eqn:Em; [|discriminate].
      simpl in E. injection E as <-.
      apply mapM_Some in Em. erewrite mapM_Some_2; [done|].
      eapply Forall2_impl; [exact Em|]. intros x y Hxy. simpl in *.
      destruct (serialize n h x.2) as [dx|] eqn:Ex; [|discriminate].
      erewrite IH; [exact Hxy|lia|exact Hext|exact Ex].
Qed.

Lemma agree_on_app lo mid h ext h2 :
  mid <= length h ->
  agree_on lo (length (h ++ ext)) (h ++ ext) h2 -> agree_on lo mid h h2.
Proof.
  intros Hmid A l Hl. rewrite A by (rewrite length_app; lia).
  apply lookup_app_l. lia.
Qed.

Lemma agree_on_from lo lo' hi h h2 :
  lo <= lo' -> agree_on lo hi h h2 -> agree_on lo' hi h h2.
Proof. intros Hlo A l Hl. apply A. lia. Qed.

Lemma rebuilt_elems ds :
  Forall rebuilt ds ->
  forall h vs h1, deserialize_elems ds h = (vs, h1) ->
    (exists ext, h1 = h ++ ext /\ max_depth ds <= length ext) /\
    (forall h2 n, agree_on (length h) (length h1) h1 h2 -> max_depth ds <= n ->
       Forall2 (fun v d => serialize n h2 v = Some d) vs ds).
Proof.
  induction 1 as [|d ds Hd _ IH]; intros h vs h1 E; simpl in E.
  - injection E as <- <-. split; [exists []; by rewrite app_nil_r|].
    intros; constructor.
  - destruct (deserialize d h) as [v ha] eqn:Ed.
    destruct (deserialize_elems ds ha) as [vs' hb] eqn:Eds.
    injection E as <- <-.
    destruct (Hd _ _ _ Ed) as ([e1 [-> D1]] & _ & R1).
    destruct (IH _ _ _ Eds) as ([e2 [-> D2]] & R2).
    split.
    + exists (e1 ++ e2). rewrite app_assoc, length_app.
      split; [done|]. simpl. fold (max_depth ds). lia.
    + intros h2 n A Hn. simpl in Hn. fold (max_depth ds) in Hn.
      constructor.
      * eapply serialize_mono; [|apply extends_refl|apply R1].
        { lia. }
        eapply agree_on_app; [|exact A]. done.
      * apply R2; [|lia]. eapply agree_on_from; [|exact A].
        rewrite length_app. lia.
Qed.

Lemma rebuilt_props ps :
  Forall (fun p => rebuilt (snd p)) ps ->
  forall h vs h1, deserialize_props ps h = (vs, h1) ->
    (exists ext, h1 = h ++ ext /\ max_depth_props ps <= length ext) /\
    (forall h2 n, agree_on (length h) (length h1) h1 h2 ->
       max_depth_props ps <= n ->
       Forall2 (fun p q => pair (fst p) <$> serialize n h2 (snd p) = Some q)
         vs ps).
Proof.
  induction 1 as [|[k d] ps Hd _ IH]; intros h vs h1 E; simpl in E.
  - injection E as <- <-. split; [exists []; by rewrite app_nil_r|].
    intros; constructor.
  - destruct (deserialize d h) as [v ha] eqn:Ed.
    destruct (deserialize_props ps ha) as [vs' hb] eqn:Eds.
    injection E as <- <-. simpl in Hd.
    destruct (Hd _ _ _ Ed) as ([e1 [-> D1]] & _ & R1).
    destruct (IH _ _ _ Eds) as ([e2 [-> D2]] & R2).
    split.
    + exists (e1 ++ e2). rewrite app_assoc, length_app.
      split; [done|]. simpl. fold (max_depth_props ps). lia.
    + intros h2 n A Hn. simpl in Hn. fold (max_depth_props ps) in Hn.
      constructor.
      * simpl. erewrite serialize_mono; [done| |apply extends_refl|apply R1].
        { lia. }
        eapply agree_on_app; [|exact A]. done.
      * apply R2; [|lia]. eapply agree_on_from; [|exact A].
        rewrite length_app. lia.
Qed.

Lemma deserialize_rebuilt d : rebuilt d.
Proof.
  induction d as [ | | b | z | s | ds IH | ps IH] using data_nested_ind;
    intros h v h' E;
    try (simpl in E; injection E as <- <-;
         split; [exists []; by rewrite app_nil_r|];
         split; [discriminate|]; by intros).
  - rewrite deserialize_array in E.
    destruct (deserialize_elems ds h) as [vs h1] eqn:Eds. injection E as <- <-.
    destruct (rebuilt_elems _ IH _ _ _ Eds) as ([ext [-> D]] & R).
    split; [|split].
    + exists (ext ++ [OArray vs]). rewrite app_assoc, length_app.
      split; [done|]. simpl. fold (max_depth ds). lia.
    + intros l [= <-]. rewrite !length_app. simpl. lia.
    + intros h2 A. simpl. fold (max_depth ds).
      rewrite A by (rewrite !length_app; simpl; lia).
      rewrite lookup_app_r, Nat.sub_diag by lia. simpl.
      erewrite mapM_Some_2; [done|]. apply R; [|lia].
      eapply agree_on_app; [|exact A]. done.
  - rewrite deserialize_object in E.
    destruct (deserialize_props ps h) as [vs h1] eqn:Eds. injection E as <- <-.
    destruct (rebuilt_props _ IH _ _ _ Eds) as ([ext [-> D]] & R).
    split; [|split].
    + exists (ext ++ [OObject vs]). rewrite app_assoc, length_app.
      split; [done|]. simpl. fold (max_depth_props ps). lia.
    + intros l [= <-]. rewrite !length_app. simpl. lia.
    + intros h2 A. simpl. fold (max_depth_props ps).
      rewrite A by (rewrite !length_app; simpl; lia).
      rewrite lookup_app_r, Nat.sub_diag by lia. simpl.
      erewrite mapM_Some_2; [done|]. apply R; [|lia].
      eapply agree_on_app; [|exact A]. done.
Qed.

Lemma agree_on_length lo hi h h2 :
  agree_on lo hi h h2 -> lo < hi <= length h -> hi <= length h2.
Proof.
  intros A [Hlo Hhi].
  destruct (lookup_lt_is_Some_2 h (hi - 1)) as [o Ho]; [lia|].
  rewrite <- A in Ho by lia. apply lookup_lt_Some in Ho. lia.
Qed.

Lemma copyable_extends h h2 v d :
  extends h h2 -> copyable h v d -> copyable h2 v d.
Proof.
  intros E C. unfold copyable in *.
  eapply serialize_mono; [|exact E|exact C].
  apply extends_length in E. lia.
Qed.

Lemma copyable_app h ext v d : copyable h v d -> copyable (h ++ ext) v d.
Proof. apply copyable_extends, extends_app. Qed.

(** The clone of a copyable value: new objects only, a new reference, and
    the same tree, which stays readable whatever happens to the rest of
    the heap. *)
Lemma structuredClone_spec h v d :
  copyable h v d ->
  exists v' ext,
    structuredClone v h = Ret (v', h ++ ext) /\
    (forall l, v' = VRef l -> length h <= l < length (h ++ ext)) /\
    (forall h2, agree_on (length h) (length (h ++ ext)) (h ++ ext) h2 ->
       copyable h2 v' d).
Proof.
  intros C. unfold structuredClone. rewrite C.
  destruct (deserialize d h) as [v' h'] eqn:E.
  destruct (deserialize_rebuilt d _ _ _ E) as ([ext [-> D]] & F & R).
  exists v', ext. split; [done|]. split; [done|].
  intros h2 A. unfold copyable.
  eapply serialize_mono; [|apply extends_refl|apply R, A].
  destruct ext as [|o ext]; [simpl in D; lia|].
  eapply agree_on_length in A; [|rewrite length_app; simpl; lia].
  rewrite length_app in A. lia.
Qed.

Lemma structuredClone_extends v h v' h' :
  structuredClone v h = Ret (v', h') -> exists ext, h' = h ++ ext.
Proof.
  unfold structuredClone. destruct (serialize _ h v) as [d|]; [|done].
  intros [= E]. destruct (deserialize_rebuilt d _ _ _ E) as ([ext [-> _]] & _).
  by exists ext.
Qed.

Lemma agree_on_refl lo hi h : agree_on lo hi h h.
Proof. by intros l _. Qed.

(** A reference unfolds to a list or a map, a tree of depth at least one,
    and only a reference does. *)
Lemma serialize_ref_inv n h l d :
  serialize n h (VRef l) = Some d -> l < length h /\ 0 < depth d.
Proof.
  destruct n as [|n]; [done|]. rewrite serialize_ref.
  destruct (h !! l) as [o|] eqn:E; [|done].
  intros Hd. split; [by eapply lookup_lt_Some|].
  destruct o; destruct (mapM _ _); try discriminate;
    injection Hd as <-; simpl; lia.
Qed.

Lemma serialize_deep n h v d :
  serialize n h v = Some d -> 0 < depth d -> exists l, v = VRef l.
Proof.
  destruct n, v; simpl;
    try (intros [= <-] H; simpl in H; lia); try done;
    intros _ _; by eexists.
Qed.

(** *** The depth bound of [structuredClone] is enough

    A value that unfolds to a finite tree at some depth does so within the
    heap size: along a branch of the tree the references are all
    different. So [structuredClone] raises only on a value with no finite
    unfolding. *)

Lemma depth_elems (ds : list data) (y : data) :
  y ∈ ds -> depth y <= max_depth ds.
Proof.
  induction ds as [|d ds IH]; [by intros ?%elem_of_nil|].
  intros [->|H]%elem_of_cons; simpl; fold (max_depth ds); [lia|].
  specialize (IH H). lia.
Qed.

Lemma depth_props (ps : list (string * data)) (q : string * data) :
  q ∈ ps -> depth (snd q) <= max_depth_props ps.
Proof.
  induction ps as [|p ps IH]; [by intros ?%elem_of_nil|].
  intros [->|H]%elem_of_cons; simpl; fold (max_depth_props ps); [lia|].
  specialize (IH H). lia.
Qed.

Lemma max_depth_reached (ds : list data) j :
  1 <= j <= max_depth ds -> exists y, y ∈ ds /\ j <= depth y.
Proof.
  induction ds as [|d ds IH]; simpl; [lia|]. fold (max_depth ds).
  intros Hj. destruct (decide (j <= depth d)) as [H|H].
  - exists d. split; [left|done].
  - destruct IH as (y & Hy & Hd); [lia|]. exists y. split; [by right|done].
Qed.

Lemma max_depth_props_reached (ps : list (string * data)) j :
  1 <= j <= max_depth_props ps -> exists q, q ∈ ps /\ j <= depth (snd q).
Proof.
  induction ps as [|p ps IH]; simpl; [lia|]. fold (max_depth_props ps).
  intros Hj. destruct (decide (j <= depth (snd p))) as [H|H].
  - exists p. split; [left|done].
  - destruct IH as (y & Hy & Hd); [lia|]. exists y. split; [by right|done].
Qed.

Lemma Forall2_impl_elem {A B} (P Q : A -> B -> Prop) l k :
  Forall2 P l k ->
  (forall x y, x ∈ l -> y ∈ k -> P x y -> Q x y) ->
  Forall2 Q l k.
Proof.
  induction 1 as [|x y l k Hxy _ IH]; intros H; constructor.
  - apply H; [left|left|done].
  - apply IH. intros x' y' Hx' Hy'. apply H; by right.
Qed.

(** The least depth that reads a tree is its own. *)
Lemma serialize_least n : forall h v d,
  serialize n h v = Some d -> serialize (depth d) h v = Some d.
Proof.
  induction n as [|n IH]; intros h v d E.
  - destruct v; simpl in E; try discriminate; by injection E as <-.
  - destruct v as [ | | | | | l | f]; simpl in E; try discriminate;
      try (by injection E as <-).
    change (serialize (S n) h (VRef l) = Some d) in E.
    rewrite serialize_ref in E.
    destruct (h !! l) as [[vs|ps]|] eqn:El; [| |discriminate].
    + destruct (mapM (serialize n h) vs) as [ds|] eqn:Em; [|discriminate].
      injection E as <-. cbn [depth]. fold (max_depth ds).
      rewrite serialize_ref, El. apply mapM_Some in Em.
      erewrite mapM_Some_2; [done|].
      eapply Forall2_impl_elem; [exact Em|]. intros x y _ Hy Hxy.
      eapply serialize_mono; [|apply extends_refl|by apply IH].
      by apply depth_elems.
    + destruct (mapM _ ps) as [qs|] eqn:Em; [|discriminate].
      injection E as <-. cbn [depth]. fold (max_depth_props qs).
      rewrite serialize_ref, El. apply mapM_Some in Em.
      erewrite mapM_Some_2; [done|].
      eapply Forall2_impl_elem; [exact Em|]. intros x y _ Hy Hxy.
      cbn beta in *.
      destruct (serialize n h x.2) as [dx|] eqn:Ex; [|discriminate].
      injection Hxy as <-.
      erewrite serialize_mono; [done| |apply extends_refl|by apply IH].
      by apply (depth_props qs (x.1, dx)).
Qed.

(** Below a tree of depth [depth d] there is, for every smaller depth
    [j >= 1], a reference that unfolds to a tree of depth exactly [j]. *)
Lemma serialize_chain n : forall h v d j,
  serialize n h v = Some d -> 1 <= j <= depth d ->
  exists l d', serialize n h (VRef l) = Some d' /\ depth d' = j.
Proof.
  induction n as [|n IH]; intros h v d j E Hj.
  - destruct v; simpl in E; try discriminate; injection E as <-;
      simpl in Hj; lia.
  - destruct v as [ | | | | | l | f]; simpl in E; try discriminate;
      try (injection E as <-; simpl in Hj; lia).
    change (serialize (S n) h (VRef l) = Some d) in E.
    destruct (decide (j = depth d)) as [->|Hne]; [by exists l, d|].
    pose proof E as E'. rewrite serialize_ref in E'.
    destruct (h !! l) as [[vs|ps]|] eqn:El; [| |discriminate].
    + destruct (mapM (serialize n h) vs) as [ds|] eqn:Em; [|discriminate].
      injection E' as <-. cbn [depth] in Hj, Hne. fold (max_depth ds) in *.
      destruct (max_depth_reached ds j) as (y & Hy & Hd); [lia|].
      apply mapM_Some in Em.
      apply list_elem_of_lookup in Hy as [i Hi].
      destruct (Forall2_lookup_r _ _ _ _ _ Em Hi) as (x & _ & Hx).
      destruct (IH h x y j Hx) as (l' & d' & E1 & D1); [lia|].
      exists l', d'. split; [|done].
      eapply serialize_mono; [|apply extends_refl|exact E1]. lia.
    + destruct (mapM _ ps) as [qs|] eqn:Em; [|discriminate].
      injection E' as <-. cbn [depth] in Hj, Hne.
      fold (max_depth_props qs) in *.
      destruct (max_depth_props_reached qs j) as (y & Hy & Hd); [lia|].
      apply mapM_Some in Em.
      apply list_elem_of_lookup in Hy as [i Hi].
      destruct (Forall2_lookup_r _ _ _ _ _ Em Hi) as (x & _ & Hx).
      cbn beta in Hx.
      destruct (serialize n h x.2) as [dx|] eqn:Ex; [|discriminate].
      injection Hx as <-. cbn [snd] in Hd.
      destruct (IH h x.2 dx j Ex) as (l' & d' & E1 & D1); [lia|].
      exists l', d'. split; [|done].
      eapply serialize_mono; [|apply extends_refl|exact E1]. lia.
Qed.

Lemma serialize_depth_bound n h v d :
  serialize n h v = Some d -> depth d <= length h.
Proof.
  intros E.
  assert (B : forall k, k <= depth d ->
    exists ls : list nat, length ls = k /\ NoDup ls /\
      forall l, l ∈ ls ->
        exists d', serialize n h (VRef l) = Some d' /\ depth d' <= k).
  { induction k as [|k IH]; intros Hk.
    - exists []. split; [done|]. split; [constructor|].
      by intros l ?%elem_of_nil.
    - destruct IH as (ls & Hlen & Hnd & Hls); [lia|].
      destruct (serialize_chain n h v d (S k) E) as (l & d' & El & Dl); [lia|].
      exists (l :: ls). split; [simpl; lia|]. split.
      + constructor; [|done]. intros Hin.
        destruct (Hls l Hin) as (d2 & E2 & D2).
        rewrite El in E2. injection E2 as <-. lia.
      + intros l' [->|Hin]%elem_of_cons.
        * exists d'. split; [done|lia].
        * destruct (Hls l' Hin) as (d2 & E2 & D2).
          exists d2. split; [done|lia]. }
  destruct (B (depth d)) as (ls & Hlen & Hnd & Hls); [lia|].
  assert (S : length ls <= length (seq 0 (length h))).
  { apply submseteq_length, NoDup_submseteq; [done|].
    intros l Hl. destruct (Hls l Hl) as (d' & E' & _).
    apply serialize_ref_inv in E' as [Hlt _].
    apply elem_of_seq. lia. }
  rewrite length_seq in S. lia.
Qed.

(** Reading at some depth is reading within the bound of
    [structuredClone]. *)
Lemma serialize_copyable n h v d :
  serialize n h v = Some d -> copyable h v d.
Proof.
  intros E. unfold copyable.
  eapply serialize_mono; [|apply extends_refl|apply (serialize_least _ _ _ _ E)].
  apply serialize_depth_bound in E. lia.
Qed.

Lemma structuredClone_throws v h e :
  structuredClone v h = Throw e ->
  e = DataCloneError /\ forall n, serialize n h v = None.
Proof.
  unfold structuredClone.
  destruct (serialize (S (length h)) h v) as [d|] eqn:E; [done|].
  intros [= <-]. split; [done|]. intros n.
  destruct (serialize n h v) as [d|] eqn:En; [|done].
  apply serialize_copyable in En. unfold copyable in En. congruence.
Qed.

End ValuesFacts.

(** ** The map *)

Module JsMapFacts.
Import Values.

Lemma get_set k v (m : JsMap.t) : JsMap.get k (JsMap.set k v m) = v.
Proof.
  induction m as [|[k' v'] m IH]; csimpl.
  - by rewrite decide_True.
  - destruct (decide (k = k')) as [->|N]; csimpl.
    + by rewrite decide_True.
    + by rewrite decide_False.
Qed.

Lemma keys_set_new k v (m : JsMap.t) :
  k ∉ JsMap.keys m -> JsMap.keys (JsMap.set k v m) = JsMap.keys m ++ [k].
Proof.
  unfold JsMap.keys. induction m as [|[k' v'] m IH]; csimpl; [done|].
  intros N. apply not_elem_of_cons in N as [N1 N2].
  rewrite decide_False by done. csimpl. by rewrite IH.
Qed.

Lemma keys_set_old k v (m : JsMap.t) :
  k ∈ JsMap.keys m -> JsMap.keys (JsMap.set k v m) = JsMap.keys m.
Proof.
  unfold JsMap.keys. induction m as [|[k' v'] m IH]; csimpl.
  - by intros ?%elem_of_nil.
  - intros H. destruct (decide (k = k')) as [->|N]; csimpl; [done|].
    apply elem_of_cons in H as [?|H]; [done|]. by rewrite IH.
Qed.

Lemma keys_delete k (m : JsMap.t) :
  JsMap.keys (JsMap.delete k m) = filter (fun k' => k' <> k) (JsMap.keys m).
Proof.
  unfold JsMap.keys, JsMap.delete.
  induction m as [|[k' v'] m IH]; csimpl; [done|].
  rewrite !filter_cons. csimpl.
  destruct (decide (k' <> k)); csimpl; by rewrite IH.
Qed.

Lemma Forall_set (P : string * val -> Prop) k v (m : JsMap.t) :
  Forall P m -> P (k, v) -> Forall P (JsMap.set k v m).
Proof.
  intros Hm Hkv. induction Hm as [|[k' v'] m Hx Hm IH]; csimpl.
  - by constructor.
  - destruct (decide (k = k')); constructor; auto.
Qed.

Lemma Forall_delete (P : string * val -> Prop) k (m : JsMap.t) :
  Forall P m -> Forall P (JsMap.delete k m).
Proof.
  unfold JsMap.delete. induction 1 as [|e m Hx Hm IH]; [constructor|].
  rewrite filter_cons. destruct (decide (e.1 <> k)); [by constructor|done].
Qed.

Lemma Forall_get (P : val -> Prop) k (m : JsMap.t) :
  Forall (fun e => P (snd e)) m -> P VUndefined -> P (JsMap.get k m).
Proof.
  intros Hm Hu. induction Hm as [|[k' v'] m Hx Hm IH]; csimpl; [done|].
  by destruct (decide (k = k')).
Qed.

Lemma size_length (m : JsMap.t) : JsMap.size m = Z.of_nat (length (JsMap.keys m)).
Proof. unfold JsMap.size, JsMap.keys. by rewrite length_fmap. Qed.

End JsMapFacts.

(** ** The adapter: what every run keeps *)

Module MockFacts.
Import Values ValuesFacts JsMapFacts Mock.

Ltac unfold_monad :=
  unfold bind, ret, throw, gets, modify, when, lift, void,
    callResolve, callReject in *.

Lemma checkStorage_live s :
  isDeleted (this s) = false -> checkStorage s = (Ret tt, s).
Proof. unfold checkStorage. by intros ->. Qed.

Lemma checkStorage_deleted s :
  isDeleted (this s) = true -> checkStorage s = (Throw StorageDeletedError, s).
Proof. unfold checkStorage. by intros ->. Qed.

(** *** Preservation, method by method *)

Lemma preserving_ret {A} (a : A) : preserving (ret a).
Proof. intros s. split; [apply extends_refl|done]. Qed.

Lemma preserving_throw {A} e : preserving (throw (A := A) e).
Proof. intros s. split; [apply extends_refl|done]. Qed.

Lemma preserving_gets {A} (f : store -> A) : preserving (gets f).
Proof. intros s. split; [apply extends_refl|done]. Qed.

Lemma preserving_bind {A B} (m : M store A) (f : A -> M store B) :
  preserving m -> (forall a, preserving (f a)) -> preserving (bind m f).
Proof.
  intros Hm Hf s. unfold bind.
  destruct (Hm s) as (E1 & L1 & S1).
  destruct (m s) as [[a|e] s1]; simpl in *; [|done].
  destruct (Hf a s1) as (E2 & L2 & S2).
  split; [by eapply extends_trans|]. split; auto.
Qed.

Lemma preserving_checkStorage : preserving checkStorage.
Proof.
  intros s. unfold checkStorage.
  destruct (isDeleted (this s)) eqn:E; simpl;
    (split; [apply extends_refl|done]).
Qed.

Lemma store_ok_extends s h :
  extends (mem s) h -> store_ok s -> store_ok {| mem := h; this := this s |}.
Proof.
  intros E H. unfold store_ok in *. simpl. eapply Forall_impl; [exact H|].
  intros e [d C]. exists d. by eapply copyable_extends.
Qed.

Lemma preserving_clone v : preserving (clone v).
Proof.
  intros s. unfold clone.
  destruct (structuredClone v (mem s)) as [[v' h']|e] eqn:E; simpl;
    [|split; [apply extends_refl|done]].
  apply structuredClone_extends in E as [ext ->].
  split; [apply extends_app|]. split; [done|].
  apply store_ok_extends, extends_app.
Qed.

Lemma preserving_set_storageName n : preserving (modify (set_storageName n)).
Proof. intros s. split; [apply extends_refl|done]. Qed.

Lemma preserving_set_isDeleted : preserving (modify (set_isDeleted true)).
Proof. intros s. split; [apply extends_refl|done]. Qed.

Lemma preserving_delete key :
  preserving
    (modify (fun s => set_storage (JsMap.delete key (storage (this s))) s)).
Proof.
  intros s. split; [apply extends_refl|]. split; [done|].
  unfold store_ok. simpl. apply Forall_delete.
Qed.

Lemma preserving_clear :
  preserving
    (modify (fun s => set_storage (JsMap.clear (storage (this s))) s)).
Proof.
  intros s. split; [apply extends_refl|]. split; [done|].
  intros _. unfold store_ok. simpl. constructor.
Qed.

(** [this.storage.set(key, structuredClone(value))] *)
Lemma preserving_put key value :
  preserving
    (copy <- clone value ;;
     modify (fun s => set_storage (JsMap.set key copy (storage (this s))) s)).
Proof.
  intros s. unfold bind, clone, modify.
  destruct (structuredClone value (mem s)) as [[v' h']|e] eqn:E; simpl;
    [|split; [apply extends_refl|done]].
  unfold structuredClone in E.
  destruct (serialize _ (mem s) value) as [d|] eqn:C; [|done].
  destruct (structuredClone_spec _ _ _ C) as (v2 & ext & E2 & _ & R).
  unfold structuredClone in E2. rewrite C in E2.
  injection E as E. rewrite E in E2. injection E2 as -> ->.
  split; [apply extends_app|]. split; [done|].
  intros Hs. unfold store_ok. simpl. apply Forall_set.
  - apply (store_ok_extends s (mem s ++ ext)); [apply extends_app|done].
  - exists d. apply R, agree_on_refl.
Qed.

(** The action of [deleteStorageAsync]. *)
Lemma preserving_wipe :
  preserving
    (modify (fun s => set_storage (JsMap.clear (storage (this s))) s) ;;;
     modify (set_isDeleted true)).
Proof.
  apply preserving_bind; [apply preserving_clear|].
  intros _. apply preserving_set_isDeleted.
Qed.

Create HintDb preserving.
Global Hint Resolve preserving_ret preserving_throw preserving_gets
  preserving_checkStorage preserving_clone preserving_set_storageName
  preserving_set_isDeleted preserving_delete preserving_clear
  preserving_put : preserving.

Ltac preserve :=
  first [ solve [auto with preserving]
        | apply preserving_bind; [preserve | intros ?; preserve] ].

Lemma preserving_callSync c : preserving (callSync c).
Proof.
  destruct c; unfold callSync, void, initSync, getItemSync, setItemSync,
    removeItemSync, clearSync, sizeSync, keySync, deleteStorageSync;
    preserve.
Qed.

(** *** The timer callback, case by case *)

Lemma timerCallback_run setup s p :
  timerCallback setup (s, p) =
  if wellFormed setup then
    match action setup with
    | Some act =>
        match act s with
        | (Ret _, s') => (Ret tt, (s', concluded setup (preempted s p)))
        | (Throw e, s') => (Throw e, (s', preempted s p))
        end
    | None => (Ret tt, (s, concluded setup (preempted s p)))
    end
  else (Throw AdapterContractViolation, (s, preempted s p)).
Proof.
  unfold timerCallback, wellFormed, preempted, concluded. unfold_monad.
  destruct setup as [[d1|] [d2|] [act|] dl]; simpl;
    destruct (isDeleted (this s)); simpl; try done;
    destruct (act s) as [[[]|e] s']; done.
Qed.

Lemma preempted_deleted s p :
  isDeleted (this s) = true ->
  preempted s p = settle (Rejected (UErr StorageDeletedError)) p.
Proof. unfold preempted. by intros ->. Qed.

Lemma preempted_live s p : isDeleted (this s) = false -> preempted s p = p.
Proof. unfold preempted. by intros ->. Qed.

Lemma concluded_settled setup p : p <> Pending -> concluded setup p = p.
Proof.
  unfold concluded. intros N.
  destruct (resolve setup), (reject setup), p; done.
Qed.

(** After the callback the promise of a deleted storage is rejected with
    the deletion error, whatever the descriptor says. *)
Lemma timerCallback_deleted setup s :
  isDeleted (this s) = true ->
  snd (snd (timerCallback setup (s, Pending))) =
  Rejected (UErr StorageDeletedError).
Proof.
  intros D. rewrite timerCallback_run, preempted_deleted by done. simpl.
  destruct (wellFormed setup); [|done].
  destruct (action setup) as [act|]; [|by apply concluded_settled].
  destruct (act s) as [[[]|e] s']; [by apply concluded_settled|done].
Qed.

Lemma timerCallback_store setup s p :
  fst (snd (timerCallback setup (s, p))) = s \/
  exists act, action setup = Some act /\
    fst (snd (timerCallback setup (s, p))) = snd (act s).
Proof.
  rewrite timerCallback_run.
  destruct (wellFormed setup); [|by left].
  destruct (action setup) as [act|]; [|by left].
  right. exists act. split; [done|]. by destruct (act s) as [[[]|e] s'].
Qed.

(** *** Tasks *)

Lemma fire_armed i w setup p :
  tasks w !! i = Some {| timer := Some setup; result := p |} ->
  fire i w =
  (fst (timerCallback setup (st w, p)),
   {| st := fst (snd (timerCallback setup (st w, p)));
      tasks := <[i := {| timer := None;
                         result := snd (snd (timerCallback setup (st w, p))) |}]>
                 (tasks w) |}).
Proof.
  unfold fire. intros ->. by destruct (timerCallback setup (st w, p)).
Qed.

Lemma fire_not_armed i w :
  (forall setup, ~ armed i setup w) -> fire i w = (Ret tt, w).
Proof.
  unfold fire, armed. intros N.
  destruct (tasks w !! i) as [[[setup|] p]|]; try done.
  by destruct (N setup).
Qed.

Lemma async_spec body w :
  async body w =
  (length (tasks w),
   {| st := snd (body (st w));
      tasks := tasks w ++
        [match fst (body (st w)) with
         | Ret setup => {| timer := Some setup; result := Pending |}
         | Throw e => {| timer := None; result := Rejected (UErr e) |}
         end] |}).
Proof.
  unfold async, wait, spawn. by destruct (body (st w)) as [[setup|e] s'].
Qed.

(** The timer of a method fires before anything else happens. *)
Lemma async_fire body w setup s' :
  body (st w) = (Ret setup, s') ->
  fire (fst (async body w)) (snd (async body w)) =
  (fst (timerCallback setup (s', Pending)),
   {| st := fst (snd (timerCallback setup (s', Pending)));
      tasks := tasks w ++
        [{| timer := None;
            result := snd (snd (timerCallback setup (s', Pending))) |}] |}).
Proof.
  intros E. rewrite async_spec, E. cbn [fst snd].
  erewrite fire_armed;
    [|cbn [tasks]; by rewrite lookup_app_r, Nat.sub_diag by lia].
  cbn [st tasks]. do 2 f_equal.
  rewrite insert_app_r_alt, Nat.sub_diag by lia. done.
Qed.

Lemma outcome_last s ts t : outcome (length ts) {| st := s; tasks := ts ++ [t] |} = Some (result t).
Proof.
  unfold outcome. cbn [tasks]. by rewrite lookup_app_r, Nat.sub_diag by lia.
Qed.

(** Every asynchronous method is [async] of a descriptor with [resolve]
    only, whose action (if any) is one of the preserving ones. *)
Lemma callAsync_descriptor c :
  exists body,
    callAsync c = async body /\ preserving body /\
    forall s setup s', body s = (Ret setup, s') ->
      isSet (resolve setup) = true /\ reject setup = None /\
      (forall act, action setup = Some act -> preserving act).
Proof.
  destruct c;
    (eexists; split; [reflexivity|]; split; [preserve|]);
    intros s setup s' E; unfold_monad; simpl in E;
    try (unfold clone in E;
         destruct (structuredClone _ (mem s)) as [[? ?]|?]; [|done]);
    injection E as <- <-; (split; [done|]); (split; [done|]);
    intros act [= <-]; try done.
  - exact (preserving_set_storageName _).
  - exact (preserving_put key value).
  - exact (preserving_delete key).
  - exact preserving_clear.
  - exact preserving_wipe.
Qed.

(** *** One event *)

Lemma world_ok_initial h : world_ok (initial h).
Proof. split; constructor. Qed.

Lemma step_ok w e :
  world_ok w ->
  world_ok (step w e) /\
  extends (mem (st w)) (mem (st (step w e))) /\
  (deleted w = true -> deleted (step w e) = true).
Proof.
  intros [Hs Ht]. destruct e as [c|c|i]; unfold deleted; simpl.
  - destruct (preserving_callSync c (st w)) as (E & L & S).
    split; [split; auto|]. split; auto.
  - destruct (callAsync_descriptor c) as (body & -> & Hb & Hd).
    rewrite async_spec. simpl.
    destruct (Hb (st w)) as (E & L & S).
    split; [|split; auto]. split; [auto|]. simpl.
    apply Forall_app. split; [done|]. constructor; [|constructor].
    destruct (body (st w)) as [[setup|e] s'] eqn:Eb; simpl; [|by intros ?].
    intros setup' [= <-]. split; [done|].
    by destruct (Hd _ _ _ Eb) as (_ & _ & Ha).
  - destruct (tasks w !! i) as [[[setup|] p]|] eqn:Ei.
    + rewrite (fire_armed _ _ _ _ Ei). simpl.
      assert (Hi : task_ok {| timer := Some setup; result := p |})
        by (eapply Forall_lookup_1; eauto).
      destruct (Hi setup eq_refl) as [_ Ha]. simpl in Ha.
      assert (Hf : Forall task_ok
        (<[i := {| timer := None;
                   result := snd (snd (timerCallback setup (st w, p))) |}]>
           (tasks w))).
      { apply Forall_insert; [done|]. by intros ?. }
      destruct (timerCallback_store setup (st w) p) as [->|(act & Ea & ->)].
      * split; [by split|]. split; [apply extends_refl|done].
      * destruct (Ha act Ea (st w)) as (E & L & S).
        split; [split; auto|]. split; auto.
    + unfold fire. rewrite Ei. simpl.
      split; [by split|]. split; [apply extends_refl|done].
    + unfold fire. rewrite Ei. simpl.
      split; [by split|]. split; [apply extends_refl|done].
Qed.

(** *** Any run *)

Lemma exec_cons e es w : exec (e :: es) w = exec es (step w e).
Proof. reflexivity. Qed.

Lemma exec_app es1 es2 w : exec (es1 ++ es2) w = exec es2 (exec es1 w).
Proof. unfold exec. apply foldl_app. Qed.

Lemma exec_ok es : forall w,
  world_ok w ->
  world_ok (exec es w) /\
  extends (mem (st w)) (mem (st (exec es w))) /\
  (deleted w = true -> deleted (exec es w) = true).
Proof.
  induction es as [|e es IH]; intros w Hw; simpl.
  - split; [done|]. split; [apply extends_refl|done].
  - destruct (step_ok w e Hw) as (Hw1 & E1 & L1).
    destruct (IH _ Hw1) as (Hw2 & E2 & L2).
    split; [done|]. split; [by eapply extends_trans|auto].
Qed.

Lemma reachable_ok h es : world_ok (exec es (initial h)).
Proof. apply exec_ok, world_ok_initial. Qed.

(** *** After the latch is set *)

Lemma callSync_deleted c s :
  isDeleted (this s) = true -> (forall name, c <> Init name) ->
  callSync c s = (Throw StorageDeletedError, s).
Proof.
  intros D N.
  destruct c; try (by destruct (N name));
    unfold callSync, void, getItemSync, setItemSync, removeItemSync,
      clearSync, sizeSync, keySync, deleteStorageSync, bind;
    by rewrite checkStorage_deleted.
Qed.

Lemma copyable_undefined h : copyable h VUndefined DUndefined.
Proof. reflexivity. Qed.

Lemma store_ok_get key s :
  store_ok s -> exists d, copyable (mem s) (JsMap.get key (storage (this s))) d.
Proof.
  intros Hs.
  apply (Forall_get (fun v => exists d, copyable (mem s) v d)); [done|].
  exists DUndefined. apply copyable_undefined.
Qed.

(** In a consistent world every asynchronous method arms a timer. *)
Lemma callAsync_armed c w :
  world_ok w ->
  fst (callAsync c w) = length (tasks w) /\
  exists setup, armed (length (tasks w)) setup (snd (callAsync c w)).
Proof.
  intros [Hs _].
  assert (A : forall body setup s',
    body (st w) = (Ret setup, s') ->
    fst (async body w) = length (tasks w) /\
    exists setup, armed (length (tasks w)) setup (snd (async body w))).
  { intros body setup s' E. rewrite async_spec, E. simpl. split; [done|].
    exists setup. unfold armed. simpl.
    by rewrite lookup_app_r, Nat.sub_diag by lia. }
  destruct c as [name|key|key value|key| | |index| ];
    unfold callAsync, initAsync, getItemAsync, setItemAsync, removeItemAsync,
      clearAsync, sizeAsync, keyAsync, deleteStorageAsync;
    try (by eapply A).
  destruct (store_ok_get key _ Hs) as [d C].
  destruct (structuredClone_spec _ _ _ C) as (v' & ext & E & _).
  eapply A. unfold bind, gets, clone. by rewrite E.
Qed.

Lemma armed_pending p setup w :
  world_ok w -> armed p setup w ->
  tasks w !! p = Some {| timer := Some setup; result := Pending |}.
Proof.
  intros [_ Ht] A. unfold armed in A.
  destruct (tasks w !! p) as [[tm r]|] eqn:E; [|done].
  injection A as ->.
  destruct (Forall_lookup_1 _ _ _ _ Ht E setup eq_refl) as [Hr _].
  simpl in Hr. by rewrite Hr.
Qed.

(** The fate of one task, [p], once the latch is set. *)
Section OneTask.
Variable p : nat.

Lemma fire_doomed w :
  world_ok w -> deleted w = true -> doomed p w ->
  outcome p (snd (fire p w)) = Some (Rejected (UErr StorageDeletedError)).
Proof.
  intros Hw D [[setup A]|O].
  - pose proof (armed_pending _ _ _ Hw A) as E.
    rewrite (fire_armed _ _ _ _ E). unfold outcome. simpl.
    rewrite list_lookup_insert_eq by (by eapply lookup_lt_Some).
    simpl. by rewrite timerCallback_deleted.
  - rewrite fire_not_armed; [done|].
    intros setup A. pose proof (armed_pending _ _ _ Hw A) as E.
    unfold outcome in O. by rewrite E in O.
Qed.

(** Other events leave a task as it is. *)
Lemma step_other_task w e :
  p < length (tasks w) -> e <> Fire p ->
  tasks (step w e) !! p = tasks w !! p.
Proof.
  intros Hp N. destruct e as [c|c|i]; simpl; [done| |].
  - destruct (callAsync_descriptor c) as (body & -> & _).
    rewrite async_spec. simpl. by apply lookup_app_l.
  - unfold fire. destruct (tasks w !! i) as [[[setup|] r]|] eqn:E; try done.
    destruct (timerCallback setup (st w, r)). simpl.
    apply list_lookup_insert_ne. congruence.
Qed.

Lemma step_length w e : length (tasks w) <= length (tasks (step w e)).
Proof.
  destruct e as [c|c|i]; simpl; [done| |].
  - destruct (callAsync_descriptor c) as (body & -> & _).
    rewrite async_spec. simpl. rewrite length_app. lia.
  - unfold fire. destruct (tasks w !! i) as [[[setup|] r]|] eqn:E; try done.
    destruct (timerCallback setup (st w, r)). simpl.
    by rewrite length_insert.
Qed.

Lemma doomed_lt w : doomed p w -> p < length (tasks w).
Proof.
  unfold doomed, armed, outcome. intros [[setup A]|A];
    destruct (tasks w !! p) eqn:E; try done; by eapply lookup_lt_Some.
Qed.

Lemma step_doomed w e :
  world_ok w -> deleted w = true -> doomed p w -> doomed p (step w e).
Proof.
  intros Hw D Hp.
  assert (C : e = Fire p \/ e <> Fire p).
  { destruct e as [c|c|i]; [by right|by right|].
    destruct (decide (i = p)) as [->|N]; [by left|right; congruence]. }
  destruct C as [->|N].
  - right. by apply fire_doomed.
  - pose proof (step_other_task w e (doomed_lt _ Hp) N) as E.
    unfold doomed, armed, outcome in *. by rewrite E.
Qed.

Lemma exec_doomed es : forall w,
  world_ok w -> deleted w = true -> doomed p w -> doomed p (exec es w).
Proof.
  induction es as [|e es IH]; intros w Hw D Hp; [done|]. simpl.
  destruct (step_ok w e Hw) as (Hw1 & _ & L1).
  apply IH; auto. by apply step_doomed.
Qed.

End OneTask.

(** Started after the latch is set, an asynchronous method ends rejected
    with the deletion error, whenever its timer fires. *)
Lemma callAsync_deleted c w later :
  world_ok w -> deleted w = true ->
  outcome (fst (callAsync c w))
    (exec (later ++ [Fire (fst (callAsync c w))]) (snd (callAsync c w))) =
  Some (Rejected (UErr StorageDeletedError)).
Proof.
  intros Hw D.
  destruct (callAsync_armed c w Hw) as [-> [setup A]].
  destruct (step_ok w (Async c) Hw) as (Hw1 & _ & L1). simpl in *.
  destruct (exec_ok later _ Hw1) as (Hw2 & _ & L2).
  rewrite exec_app. simpl. apply fire_doomed; auto.
  apply exec_doomed; auto. left. by exists setup.
Qed.

(** *** Order of the keys *)

Lemma setItemSync_live s key value d :
  isDeleted (this s) = false -> copyable (mem s) value d ->
  exists copy ext,
    setItemSync key value s =
      (Ret tt,
       set_storage (JsMap.set key copy (storage (this s)))
         {| mem := mem s ++ ext; this := this s |}) /\
    (forall l, copy = VRef l -> length (mem s) <= l < length (mem s ++ ext)) /\
    (forall h2,
       agree_on (length (mem s)) (length (mem s ++ ext)) (mem s ++ ext) h2 ->
       copyable h2 copy d).
Proof.
  intros L C.
  destruct (structuredClone_spec _ _ _ C) as (copy & ext & E & F & R).
  exists copy, ext. split; [|done].
  unfold setItemSync, bind, clone, modify.
  by rewrite checkStorage_live, E.
Qed.

Lemma keySync_live s index :
  isDeleted (this s) = false ->
  keySync index s = (Ret (keyOf (storage (this s)) index), s).
Proof.
  intros L. unfold keySync, bind, gets. by rewrite checkStorage_live.
Qed.

Lemma sizeSync_live s :
  isDeleted (this s) = false ->
  sizeSync s = (Ret (JsMap.size (storage (this s))), s).
Proof.
  intros L. unfold sizeSync, bind, gets. by rewrite checkStorage_live.
Qed.

Lemma keysFrom_live s :
  isDeleted (this s) = false ->
  forall count i,
    keysFrom (Z.of_nat i) count s =
    (Ret ((fun j => keyOf (storage (this s)) (Z.of_nat j)) <$> seq i count), s).
Proof.
  intros L. induction count as [|count IH]; intros i; [done|].
  cbn [keysFrom]. unfold bind at 1. rewrite keySync_live by done.
  unfold bind at 1. replace (Z.of_nat i + 1)%Z with (Z.of_nat (S i)) by lia.
  by rewrite IH.
Qed.

(** On a live adapter the iterator gives the keys of the map, in the
    order of the map. *)
Lemma keysByIndex_live s :
  isDeleted (this s) = false ->
  keysByIndex s = (Ret (VStr <$> JsMap.keys (storage (this s))), s).
Proof.
  intros L. unfold keysByIndex. unfold bind at 1.
  rewrite sizeSync_live by done. unfold JsMap.size. rewrite Nat2Z.id.
  rewrite (keysFrom_live s L _ 0). do 2 f_equal.
  unfold JsMap.keys. apply list_eq. intros i. rewrite !list_lookup_fmap.
  destruct (storage (this s) !! i) as [[k v]|] eqn:E.
  - rewrite lookup_seq_lt by (by eapply lookup_lt_Some). simpl.
    unfold keyOf, JsMap.index.
    rewrite decide_True by lia. by rewrite Nat2Z.id, E.
  - rewrite lookup_seq_ge; [done|]. by apply lookup_ge_None.
Qed.

(** [setItem] calls on new, distinct keys add them at the end, in the
    order of the calls. *)
Lemma exec_setItems kvs : forall w,
  deleted w = false ->
  Forall (fun kv => exists d, copyable (mem (st w)) (snd kv) d) kvs ->
  NoDup (fst <$> kvs) ->
  (forall k, k ∈ fst <$> kvs -> k ∉ JsMap.keys (entries w)) ->
  deleted (exec (setItems kvs) w) = false /\
  JsMap.keys (entries (exec (setItems kvs) w)) =
  JsMap.keys (entries w) ++ (fst <$> kvs).
Proof.
  induction kvs as [|[k v] kvs IH]; intros w L C N F.
  - simpl. by rewrite app_nil_r.
  - apply Forall_cons in C as [[d Cv] C].
    rewrite fmap_cons in N. apply NoDup_cons in N as [N1 N2].
    assert (Fk : k ∉ JsMap.keys (entries w))
      by (apply F; rewrite fmap_cons; left).
    assert (F' : forall k', k' ∈ kvs.*1 -> k' ∉ JsMap.keys (entries w))
      by (intros k' Hk'; apply F; rewrite fmap_cons; by right).
    rewrite fmap_cons. cbn [fst snd] in *.
    destruct (setItemSync_live (st w) k v d L Cv) as (copy & ext & E & _).
    change (setItems ((k, v) :: kvs))
      with (Sync (SetItem k v) :: setItems kvs).
    rewrite !exec_cons.
    assert (W : st (step w (Sync (SetItem k v))) =
                set_storage (JsMap.set k copy (storage (this (st w))))
                  {| mem := mem (st w) ++ ext; this := this (st w) |}).
    { cbn [step st callSync]. unfold void, bind. by rewrite E. }
    set (w1 := step w (Sync (SetItem k v))) in *.
    assert (K : JsMap.keys (entries w1) = JsMap.keys (entries w) ++ [k]).
    { unfold entries. rewrite W. cbn [set_storage this storage].
      by apply keys_set_new. }
    destruct (IH w1) as [L1 K1].
    + unfold deleted. by rewrite W.
    + rewrite W. cbn [set_storage mem].
      eapply Forall_impl; [exact C|]. intros kv [d' C'].
      exists d'. by apply copyable_app.
    + done.
    + intros k' Hk'. rewrite K.
      intros [H|H%list_elem_of_singleton]%elem_of_app.
      * by apply (F' k').
      * subst. done.
    + split; [done|]. rewrite K1, K. by rewrite <- app_assoc.
Qed.

End MockFacts.

(** ** Earlier revisions *)

Module EarlierFacts.
Import Values Mock.

(** Before the [?.] was added, [keyAt] past the end raised. *)
Lemma keySync_past_the_end :
  fst (Earlier.keySync 0 (st (initial []))) = Throw TypeError.
Proof. reflexivity. Qed.

(** Before [this.storage.clear()] was added, the synchronous
    [deleteStorage] kept the entries. *)
Lemma deleteStorageSync_kept_entries :
  let w := exec [Sync (SetItem "a" (VNum 1))] (initial []) in
  storage (this (snd (Earlier.deleteStorageSync (st w)))) = [("a", VNum 1)].
Proof. reflexivity. Qed.

End EarlierFacts.

(** ** The properties of the specification *)

Module Contract.
Import Values ValuesFacts JsMapFacts Mock MockFacts.

Lemma step_fire w i : step w (Fire i) = snd (fire i w).
Proof. reflexivity. Qed.

Lemma exec_other_task p es : forall w,
  p < length (tasks w) -> Fire p ∉ es ->
  tasks (exec es w) !! p = tasks w !! p.
Proof.
  induction es as [|e es IH]; intros w Hp N; [done|]. simpl.
  apply not_elem_of_cons in N as [N1 N2].
  rewrite IH; [|pose proof (step_length w e); lia|done].
  apply step_other_task; [done|congruence].
Qed.

(** A call of [deleteStorage] leaves the latch set, whether it was set
    before or not. *)
Lemma deleteStorage_sets_latch w :
  deleted (step w (Sync DeleteStorage)) = true.
Proof.
  unfold deleted. cbn [step st callSync].
  unfold void, deleteStorageSync, bind, checkStorage.
  by destruct (isDeleted (this (st w))) eqn:E.
Qed.

(** C1. Once the latch is set (here: in the world [w] that some run has
    reached, for one by a call of [deleteStorage] as its last event), it
    stays set after any further events, and from then on each
    of [getItem], [setItem], [removeItem], [clear], [size] and [keyAt]
    fails with the deletion error: the synchronous form throws it and
    changes nothing; the asynchronous form, started then and fired after
    any further events, ends rejected with it. *)
Theorem latch_finality (h : heap) (before after : list event) (c : call) :
  let w := exec before (initial h) in
  deleted w = true ->
  guarded c = true ->
  let w' := exec after w in
  deleted w' = true /\
  callSync c (st w') = (Throw StorageDeletedError, st w') /\
  forall later : list event,
    outcome (fst (callAsync c w'))
      (exec (later ++ [Fire (fst (callAsync c w'))]) (snd (callAsync c w'))) =
    Some (Rejected (UErr StorageDeletedError)).
Proof.
  intros w D G w'.
  pose proof (reachable_ok h before) as Hw. fold w in Hw.
  destruct (exec_ok after w Hw) as (Hw' & _ & L). fold w' in Hw', L.
  specialize (L D).
  split; [done|]. split.
  - apply callSync_deleted; [done|]. intros name ->. done.
  - intros later. by apply callAsync_deleted.
Qed.

Lemma latch_finality_witness :
  let h : heap := [] in
  let before := [Sync (SetItem "a" (VNum 1)); Sync DeleteStorage] in
  let after := [Sync (GetItem "a"); Async (SetItem "b" (VNum 2)); Fire 0] in
  let w' := exec after (exec before (initial h)) in
  deleted (exec before (initial h)) = true /\
  guarded (GetItem "a") = true /\
  deleted w' = true /\
  callSync (GetItem "a") (st w') = (Throw StorageDeletedError, st w') /\
  outcome 1 (exec [Fire 1] (snd (callAsync (GetItem "a") w'))) =
  Some (Rejected (UErr StorageDeletedError)).
Proof.
  intros h before after w'.
  assert (D : deleted (exec before (initial h)) = true) by reflexivity.
  assert (G : guarded (GetItem "a") = true) by reflexivity.
  destruct (latch_finality h before after (GetItem "a") D G) as (A & B & C).
  split; [exact D|]. split; [exact G|]. split; [exact A|].
  split; [exact B|]. exact (C []).
Defined.

(** C2. A deferred operation is started (in any reachable world, live in
    particular); other events follow, none of them the firing of its timer;
    by then the latch is set. When its timer fires, its promise is rejected
    with the deletion error, and so not fulfilled with any payload. *)
Theorem deletion_preempts (h : heap) (before between : list event) (c : call) :
  let w0 := exec before (initial h) in
  let p := fst (callAsync c w0) in
  let w2 := exec between (snd (callAsync c w0)) in
  Fire p ∉ between ->
  deleted w2 = true ->
  outcome p (step w2 (Fire p)) = Some (Rejected (UErr StorageDeletedError)) /\
  forall payload, outcome p (step w2 (Fire p)) <> Some (Fulfilled payload).
Proof.
  intros w0 p w2 N D.
  pose proof (reachable_ok h before) as Hw0. fold w0 in Hw0.
  destruct (callAsync_armed c w0 Hw0) as [Ep [setup A]]. fold p in Ep.
  destruct (step_ok w0 (Async c) Hw0) as (Hw1 & _). simpl in Hw1.
  destruct (exec_ok between _ Hw1) as (Hw2 & _). fold w2 in Hw2.
  assert (O : outcome p (step w2 (Fire p)) =
              Some (Rejected (UErr StorageDeletedError))).
  { simpl. apply fire_doomed; [done|done|]. left. exists setup.
    unfold armed in *. unfold w2. rewrite exec_other_task; [|..|done].
    - by rewrite Ep.
    - rewrite Ep. eapply lookup_lt_is_Some.
      destruct (tasks (callAsync c w0).2 !! length (tasks w0)); [eauto|done]. }
  split; [done|]. intros payload. by rewrite O.
Qed.

Lemma deletion_preempts_witness :
  let h : heap := [] in
  let before := [Sync (SetItem "a" (VNum 1))] in
  let between := [Sync DeleteStorage] in
  let w0 := exec before (initial h) in
  let w2 := exec between (snd (callAsync (GetItem "a") w0)) in
  deleted w0 = false /\
  (Fire 0 ∉ between) /\
  deleted w2 = true /\
  outcome 0 (step w2 (Fire 0)) = Some (Rejected (UErr StorageDeletedError)).
Proof.
  intros h before between w0 w2.
  assert (N : Fire (fst (callAsync (GetItem "a") w0)) ∉ between).
  { intros H. apply list_elem_of_singleton in H. discriminate H. }
  assert (D : deleted w2 = true) by reflexivity.
  split; [reflexivity|]. split; [exact N|]. split; [exact D|].
  exact (proj1 (deletion_preempts h before between (GetItem "a") N D)).
Defined.

(** C3. The latch does not close the map. A [setItem] in its asynchronous
    form, started after [deleteStorage] (first run) or before it and fired
    after (second run), is rejected with the deletion error and still
    writes its entry: the callback goes on to the action after the
    [reject]. *)
Lemma mutated_after_deletion :
  let run1 := [Sync DeleteStorage; Async (SetItem "k" (VNum 1)); Fire 0] in
  let run2 := [Async (SetItem "k" (VNum 1)); Sync DeleteStorage; Fire 0] in
  (entries (exec (take 1 run1) (initial [])) = [] /\
   deleted (exec (take 1 run1) (initial [])) = true /\
   outcome 0 (exec run1 (initial [])) =
     Some (Rejected (UErr StorageDeletedError)) /\
   entries (exec run1 (initial [])) = [("k", VNum 1)]) /\
  (entries (exec (take 2 run2) (initial [])) = [] /\
   deleted (exec (take 2 run2) (initial [])) = true /\
   outcome 0 (exec run2 (initial [])) =
     Some (Rejected (UErr StorageDeletedError)) /\
   entries (exec run2 (initial [])) = [("k", VNum 1)]).
Proof. vm_compute. repeat split. Qed.

(** The descriptor of [deleteStorageAsync]. *)
Lemma deleteStorageAsync_task w :
  tasks (snd (deleteStorageAsync w)) !! fst (deleteStorageAsync w) =
  Some {| timer := Some {|
            action := Some (
              modify (fun s => set_storage (JsMap.clear (storage (this s))) s) ;;;
              modify (set_isDeleted true));
            resolve := Some UOk; reject := None; delay := None |};
          result := Pending |}.
Proof.
  unfold deleteStorageAsync. rewrite async_spec. simpl.
  by rewrite lookup_app_r, Nat.sub_diag by lia.
Qed.

(** C4. On a live adapter [deleteStorage] empties the map and sets the
    latch: the synchronous form at once, the asynchronous form when its
    timer fires, whatever happened in between. After either, no run unsets
    the latch. *)
Theorem deleteStorage_clears_and_latches (h : heap) (before : list event) :
  let w := exec before (initial h) in
  deleted w = false ->
  (let s' := snd (deleteStorageSync (st w)) in
   fst (deleteStorageSync (st w)) = Ret tt /\
   storage (this s') = [] /\ JsMap.size (storage (this s')) = 0%Z /\
   isDeleted (this s') = true /\
   forall after,
     deleted (exec after (step w (Sync DeleteStorage))) = true) /\
  (let p := fst (deleteStorageAsync w) in
   forall between, Fire p ∉ between ->
     let w3 := step (exec between (snd (deleteStorageAsync w))) (Fire p) in
     entries w3 = [] /\ JsMap.size (entries w3) = 0%Z /\
     deleted w3 = true /\
     forall after, deleted (exec after w3) = true).
Proof.
  intros w L.
  pose proof (reachable_ok h before) as Hw. fold w in Hw.
  split.
  - unfold deleteStorageSync, bind, deleted in *.
    rewrite checkStorage_live by done. simpl.
    repeat (split; [done|]).
    intros after.
    destruct (step_ok w (Sync DeleteStorage) Hw) as (Hw1 & _).
    apply exec_ok; [done|].
    unfold deleted. simpl. unfold void, deleteStorageSync, bind.
    by rewrite checkStorage_live.
  - intros p between N w3.
    pose proof (proj1 (step_ok w (Async DeleteStorage) Hw)) as Hw1.
    change (world_ok (snd (deleteStorageAsync w))) in Hw1.
    destruct (exec_ok between _ Hw1) as (Hw2 & _).
    destruct (step_ok _ (Fire p) Hw2) as (Hw3 & _). fold w3 in Hw3.
    pose proof (deleteStorageAsync_task w) as E. fold p in E.
    rewrite <- (exec_other_task p between) in E;
      [|by eapply lookup_lt_Some|done].
    assert (R : entries w3 = [] /\ deleted w3 = true).
    { unfold w3, entries, deleted. rewrite step_fire.
      rewrite (fire_armed _ _ _ _ E), timerCallback_run. simpl. done. }
    destruct R as [R1 R2]. rewrite R1.
    repeat (split; [done|]).
    intros after. by apply exec_ok.
Qed.

Lemma deleteStorage_clears_and_latches_witness :
  let h : heap := [] in
  let before := [Sync (SetItem "a" (VNum 1)); Sync (SetItem "b" VNull)] in
  let w := exec before (initial h) in
  let w1 := step w (Sync DeleteStorage) in
  let w3 := exec [Async DeleteStorage; Sync (SetItem "c" (VNum 3)); Fire 0] w in
  deleted w = false /\ JsMap.size (entries w) = 2%Z /\
  (JsMap.size (entries w1) = 0%Z /\ deleted w1 = true) /\
  (JsMap.size (entries w3) = 0%Z /\ deleted w3 = true).
Proof.
  intros h before w w1 w3.
  assert (L : deleted w = false) by reflexivity.
  destruct (deleteStorage_clears_and_latches h before L) as [S A].
  split; [exact L|]. split; [reflexivity|]. split.
  - destruct S as (_ & _ & S1 & S2 & _). split; [exact S1|exact S2].
  - assert (N : Fire (fst (deleteStorageAsync w)) ∉
                [Sync (SetItem "c" (VNum 3))]).
    { intros H. apply list_elem_of_singleton in H. discriminate H. }
    destruct (A _ N) as (_ & A1 & A2 & _). split; [exact A1|exact A2].
Defined.

(** C5, as claimed, fails: a second [deleteStorage] raises. The
    synchronous form throws the deletion error; the asynchronous form is
    rejected with it. *)
Lemma second_deleteStorage_raises :
  let w := exec [Sync DeleteStorage] (initial []) in
  fst (callSync DeleteStorage (st w)) = Throw StorageDeletedError /\
  fst (callSync DeleteStorage (st w)) <> Ret (UVal VUndefined) /\
  outcome 0 (exec [Async DeleteStorage; Fire 0] w) =
    Some (Rejected (UErr StorageDeletedError)).
Proof. vm_compute. repeat split. discriminate. Qed.

(** C5, amended. [deleteStorage] is guarded like the other operations:
    once the latch is set, its synchronous form throws the deletion error
    at [checkStorage] and changes nothing, its asynchronous form ends
    rejected with that error, and the latch stays set. *)
Theorem second_deleteStorage_fails (h : heap) (before : list event) :
  let w := exec before (initial h) in
  deleted w = true ->
  callSync DeleteStorage (st w) = (Throw StorageDeletedError, st w) /\
  (forall later : list event,
     outcome (fst (callAsync DeleteStorage w))
       (exec (later ++ [Fire (fst (callAsync DeleteStorage w))])
          (snd (callAsync DeleteStorage w))) =
     Some (Rejected (UErr StorageDeletedError))) /\
  forall after, deleted (exec after w) = true.
Proof.
  intros w D.
  pose proof (reachable_ok h before) as Hw. fold w in Hw.
  split; [by apply callSync_deleted|].
  split; [intros later; by apply callAsync_deleted|].
  intros after. by apply exec_ok.
Qed.

Lemma second_deleteStorage_fails_witness :
  let w := exec [Sync (SetItem "a" (VNum 1)); Sync DeleteStorage] (initial []) in
  deleted w = true /\
  callSync DeleteStorage (st w) = (Throw StorageDeletedError, st w) /\
  outcome 0 (exec [Fire 0] (snd (callAsync DeleteStorage w))) =
    Some (Rejected (UErr StorageDeletedError)).
Proof.
  intros w.
  assert (D : deleted w = true) by reflexivity.
  destruct (second_deleteStorage_fails []
              [Sync (SetItem "a" (VNum 1)); Sync DeleteStorage] D)
    as (A & B & _).
  split; [exact D|]. split; [exact A|]. exact (B []).
Defined.

Lemma keyOf_out_of_range (m : JsMap.t) (index : Z) :
  (index < 0 \/ JsMap.size m <= index)%Z -> keyOf m index = VUndefined.
Proof.
  unfold keyOf, JsMap.index, JsMap.size. intros R.
  destruct (decide (0 <= index)%Z) as [P|N]; [|done].
  rewrite lookup_ge_None_2; [done|lia].
Qed.

(** C6. On a live adapter [keyAt] at a negative index, or at one not below
    the size, gives [undefined] and raises nothing, in the synchronous form
    and in the asynchronous one (fired while the adapter is live). *)
Theorem keyAt_out_of_range (w : world) (index : Z) :
  deleted w = false ->
  (index < 0 \/ JsMap.size (entries w) <= index)%Z ->
  keySync index (st w) = (Ret VUndefined, st w) /\
  (let p := fst (keyAsync index w) in
   fst (fire p (snd (keyAsync index w))) = Ret tt /\
   outcome p (snd (fire p (snd (keyAsync index w)))) =
     Some (Fulfilled (UVal VUndefined))).
Proof.
  unfold deleted, entries. intros L R.
  split.
  - unfold keySync, bind, gets. rewrite checkStorage_live by done.
    by rewrite keyOf_out_of_range.
  - unfold keyAsync. erewrite async_fire; [|reflexivity].
    rewrite async_spec. cbn [fst snd]. rewrite outcome_last.
    rewrite timerCallback_run, preempted_live by done.
    by rewrite keyOf_out_of_range.
Qed.

Lemma keyAt_out_of_range_witness :
  let w := exec [Sync (SetItem "a" (VNum 1)); Sync (SetItem "b" VNull)]
             (initial []) in
  (deleted w = false /\ JsMap.size (entries w) = 2%Z) /\
  keySync 2 (st w) = (Ret VUndefined, st w) /\
  keySync (-1) (st w) = (Ret VUndefined, st w) /\
  keySync 1 (st w) = (Ret (VStr "b"), st w).
Proof.
  intros w.
  assert (L : deleted w = false) by reflexivity.
  split; [split; [exact L|reflexivity]|].
  split; [|split; [|reflexivity]].
  - apply (keyAt_out_of_range w 2 L). right. vm_compute. discriminate.
  - apply (keyAt_out_of_range w (-1) L). left. reflexivity.
Defined.

Lemma step_setItem_live w k v d :
  deleted w = false -> copyable (mem (st w)) v d ->
  exists copy ext,
    st (step w (Sync (SetItem k v))) =
    set_storage (JsMap.set k copy (entries w))
      {| mem := mem (st w) ++ ext; this := this (st w) |}.
Proof.
  intros L C.
  destruct (setItemSync_live (st w) k v d L C) as (copy & ext & E & _).
  exists copy, ext. cbn [step st callSync]. unfold void, bind. by rewrite E.
Qed.

Lemma step_removeItem_live w k :
  deleted w = false ->
  st (step w (Sync (RemoveItem k))) =
  set_storage (JsMap.delete k (entries w)) (st w).
Proof.
  intros L. cbn [step st callSync].
  unfold void, removeItemSync, bind, modify. by rewrite checkStorage_live.
Qed.

(** C8. On a live adapter, asking [size()] and then [keyAt(i)] for every
    [i] below it gives the keys in the order of their first insertion:
    (1) after [setItem] calls on new, distinct keys, the keys that were
    there and then the new ones, in the order of the calls;
    (2) after [setItem] on a key already there, the order as it was;
    (3) after [removeItem] and then [setItem] of the same key, the other
    keys in their order and that key last. *)
Theorem insertion_order (w : world) :
  deleted w = false ->
  (forall kvs : list (string * val),
     Forall (fun kv => exists d, copyable (mem (st w)) (snd kv) d) kvs ->
     NoDup (fst <$> kvs) ->
     (forall k, k ∈ fst <$> kvs -> k ∉ JsMap.keys (entries w)) ->
     let w' := exec (setItems kvs) w in
     keysByIndex (st w') =
     (Ret (VStr <$> (JsMap.keys (entries w) ++ (fst <$> kvs))), st w')) /\
  (forall k v d,
     k ∈ JsMap.keys (entries w) -> copyable (mem (st w)) v d ->
     let w' := step w (Sync (SetItem k v)) in
     keysByIndex (st w) = (Ret (VStr <$> JsMap.keys (entries w)), st w) /\
     keysByIndex (st w') = (Ret (VStr <$> JsMap.keys (entries w)), st w')) /\
  (forall k v d,
     copyable (mem (st w)) v d ->
     let w' := exec [Sync (RemoveItem k); Sync (SetItem k v)] w in
     keysByIndex (st w') =
     (Ret (VStr <$>
             (filter (fun k' => k' <> k) (JsMap.keys (entries w)) ++ [k])),
      st w')).
Proof.
  intros L. split; [|split].
  - intros kvs C N F w'.
    destruct (exec_setItems kvs w L C N F) as [L' K]. fold w' in L', K.
    rewrite keysByIndex_live by done. unfold entries in K. by rewrite K.
  - intros k v d Hk C w'. split; [by apply keysByIndex_live|].
    destruct (step_setItem_live w k v d L C) as (copy & ext & E).
    fold w' in E. rewrite keysByIndex_live by (by rewrite E).
    do 2 f_equal. rewrite E. cbn [set_storage this storage].
    by rewrite keys_set_old.
  - intros k v d C w'. unfold w'. rewrite !exec_cons. cbn [exec foldl].
    pose proof (step_removeItem_live w k L) as E1.
    set (w1 := step w (Sync (RemoveItem k))) in *.
    assert (L1 : deleted w1 = false) by (unfold deleted; by rewrite E1).
    assert (C1 : copyable (mem (st w1)) v d) by (by rewrite E1).
    destruct (step_setItem_live w1 k v d L1 C1) as (copy & ext & E2).
    rewrite keysByIndex_live by (by rewrite E2).
    do 2 f_equal. rewrite E2. cbn [set_storage this storage].
    unfold entries. rewrite E1. cbn [set_storage this storage].
    rewrite keys_set_new, keys_delete; [done|].
    rewrite keys_delete. intros [N _]%list_elem_of_filter. done.
Qed.

Lemma insertion_order_witness :
  let kvs := [("b", VNum 1); ("a", VNum 2); ("c", VNull)] in
  let w := exec (setItems kvs) (initial []) in
  let w1 := step w (Sync (SetItem "b" (VNum 7))) in
  let w2 := exec [Sync (RemoveItem "b"); Sync (SetItem "b" (VNum 7))] w in
  keysByIndex (st w) = (Ret [VStr "b"; VStr "a"; VStr "c"], st w) /\
  keysByIndex (st w1) = (Ret [VStr "b"; VStr "a"; VStr "c"], st w1) /\
  keysByIndex (st w2) = (Ret [VStr "a"; VStr "c"; VStr "b"], st w2).
Proof.
  intros kvs w w1 w2.
  assert (L0 : deleted (initial []) = false) by reflexivity.
  assert (L : deleted w = false) by reflexivity.
  split; [|split].
  - apply (proj1 (insertion_order (initial []) L0) kvs).
    + repeat constructor; eexists; reflexivity.
    + apply (bool_decide_unpack _). vm_compute. exact I.
    + intros k _ H. apply elem_of_nil in H. exact H.
  - apply (proj1 (proj2 (insertion_order w L)) "b" (VNum 7) (DNum 7)).
    + apply (bool_decide_unpack _). vm_compute. exact I.
    + reflexivity.
  - apply (proj2 (proj2 (insertion_order w L)) "b" (VNum 7) (DNum 7)).
    reflexivity.
Defined.

(** The descriptors that the adapter itself builds are well formed, and
    their actions return; for [setItemAsync] this needs the value to be
    copyable when the timer fires. *)
Lemma callAsync_wellFormed c :
  exists body,
    callAsync c = async body /\
    forall s setup s', body s = (Ret setup, s') ->
      wellFormed setup = true /\
      forall act s2, action setup = Some act ->
        match c with
        | SetItem _ value => exists d, copyable (mem s2) value d
        | _ => True
        end ->
        exists s3, act s2 = (Ret tt, s3).
Proof.
  destruct c as [name|key|key value|key| | |index| ];
    (eexists; split; [reflexivity|]);
    intros s setup s' E; unfold bind, gets, ret in E;
    try (unfold clone in E;
         destruct (structuredClone _ (mem s)) as [[? ?]|?]; [|done]);
    injection E as <- <-; (split; [done|]);
    intros act s2 [= <-]; try (intros _; by eexists).
  intros [d C].
  destruct (structuredClone_spec _ _ _ C) as (copy & ext & E & _).
  unfold bind, clone, modify. rewrite E. by eexists.
Qed.


Lemma outcome_fire p w setup :
  tasks w !! p = Some {| timer := Some setup; result := Pending |} ->
  outcome p (snd (fire p w)) =
  Some (snd (snd (timerCallback setup (st w, Pending)))).
Proof.
  intros E. rewrite (fire_armed _ _ _ _ E). unfold outcome. cbn [snd tasks].
  by rewrite list_lookup_insert_eq by (by eapply lookup_lt_Some).
Qed.




(** The three reading methods make a descriptor with the payload they
    have read and no action; when the timer fires on a live adapter, the
    promise takes that payload. *)
Lemma read_snapshot body w payload s' between :
  body (st w) =
    (Ret {| resolve := Some payload; reject := None; action := None;
            delay := None |}, s') ->
  let p := fst (async body w) in
  let w2 := exec between (snd (async body w)) in
  Fire p ∉ between -> deleted w2 = false ->
  outcome p (step w2 (Fire p)) = Some (Fulfilled payload).
Proof.
  intros Eb p w2 N L.
  assert (E : tasks (snd (async body w)) !! p =
    Some {| timer := Some {| resolve := Some payload; reject := None;
                             action := None; delay := None |};
            result := Pending |}).
  { unfold p. rewrite async_spec, Eb. cbn [fst snd tasks].
    by rewrite lookup_app_r, Nat.sub_diag by lia. }
  rewrite <- (exec_other_task p between) in E;
    [|by eapply lookup_lt_Some|done].
  fold w2 in E. rewrite step_fire, (outcome_fire _ _ _ E).
  rewrite timerCallback_run, preempted_live by done. done.
Qed.

(** C10. [getItemAsync], [sizeAsync] and [keyAsync] read the map when they
    are called. Whatever events come before the timer fires, a promise that
    is fulfilled then (the adapter being live) carries what was read at
    the call: the clone made then (still the tree that the stored value
    had then), the size then, the key at the index then. *)
Theorem async_reads_at_initiation (h : heap) (before between : list event) :
  let w := exec before (initial h) in
  (forall key,
     let p := fst (getItemAsync key w) in
     let w2 := exec between (snd (getItemAsync key w)) in
     Fire p ∉ between -> deleted w2 = false ->
     exists copy d,
       fst (clone (JsMap.get key (entries w)) (st w)) = Ret copy /\
       copyable (mem (st w)) (JsMap.get key (entries w)) d /\
       outcome p (step w2 (Fire p)) = Some (Fulfilled (UVal copy)) /\
       copyable (mem (st (step w2 (Fire p)))) copy d) /\
  (let p := fst (sizeAsync w) in
   let w2 := exec between (snd (sizeAsync w)) in
   Fire p ∉ between -> deleted w2 = false ->
   outcome p (step w2 (Fire p)) =
   Some (Fulfilled (UVal (VNum (JsMap.size (entries w)))))) /\
  (forall index,
     let p := fst (keyAsync index w) in
     let w2 := exec between (snd (keyAsync index w)) in
     Fire p ∉ between -> deleted w2 = false ->
     outcome p (step w2 (Fire p)) =
     Some (Fulfilled (UVal (keyOf (entries w) index)))).
Proof.
  intros w.
  pose proof (reachable_ok h before) as Hw. fold w in Hw.
  split; [|split].
  - intros key p w2 N L.
    destruct (store_ok_get key _ (proj1 Hw)) as [d C].
    destruct (structuredClone_spec _ _ _ C) as (copy & ext & E & _ & R).
    exists copy, d.
    assert (Ec : clone (JsMap.get key (entries w)) (st w) =
                 (Ret copy, {| mem := mem (st w) ++ ext; this := this (st w) |})).
    { unfold clone, entries. by rewrite E. }
    split; [by rewrite Ec|]. split; [done|]. split.
    + eapply (read_snapshot _ w (UVal copy)); [|done|done].
      unfold bind, gets. fold (entries w). by rewrite Ec.
    + pose proof (proj1 (step_ok w (Async (GetItem key)) Hw)) as Hw1.
      change (world_ok (snd (getItemAsync key w))) in Hw1.
      destruct (exec_ok between _ Hw1) as (Hw2 & X2 & _). fold w2 in Hw2, X2.
      destruct (step_ok w2 (Fire p) Hw2) as (_ & X3 & _).
      eapply copyable_extends; [exact X3|].
      eapply copyable_extends; [exact X2|].
      unfold getItemAsync. rewrite async_spec. cbn [snd st].
      unfold bind, gets. fold (entries w). rewrite Ec. cbn [snd mem].
      apply R, agree_on_refl.
  - intros p w2 N L. by eapply (read_snapshot _ w).
  - intros index p w2 N L. by eapply (read_snapshot _ w).
Qed.

Lemma async_reads_at_initiation_witness :
  let before := [Sync (SetItem "a" (VNum 1))] in
  let between :=
    [Sync (SetItem "a" (VNum 2)); Sync (RemoveItem "a");
     Sync (SetItem "b" VNull); Sync (SetItem "c" VNull)] in
  let w := exec before (initial []) in
  (entries (exec between w) = [("b", VNull); ("c", VNull)]) /\
  outcome 0 (exec (between ++ [Fire 0]) (snd (getItemAsync "a" w))) =
    Some (Fulfilled (UVal (VNum 1))) /\
  outcome 0 (exec (between ++ [Fire 0]) (snd (sizeAsync w))) =
    Some (Fulfilled (UVal (VNum 1))) /\
  outcome 0 (exec (between ++ [Fire 0]) (snd (keyAsync 0 w))) =
    Some (Fulfilled (UVal (VStr "a"))).
Proof.
  intros before between w.
  assert (N : Fire 0 ∉ between).
  { intros H. repeat (apply elem_of_cons in H as [H|H]; [discriminate H|]).
    apply elem_of_nil in H. exact H. }
  destruct (async_reads_at_initiation [] before between) as (G & S & K).
  split; [reflexivity|]. split; [|split].
  - destruct (G "a" N eq_refl) as (copy & d & Ec & _ & O & _).
    injection Ec as <-. rewrite exec_app. exact O.
  - rewrite exec_app. exact (S N eq_refl).
  - rewrite exec_app. exact (K 0%Z N eq_refl).
Defined.

(** The asynchronous forms act on the store as the synchronous ones do:
    [setItemAsync], when its timer fires on a live adapter, and
    [getItemAsync], when it is called. *)
Lemma setItemAsync_as_sync w k v :
  deleted w = false ->
  let p := fst (setItemAsync k v w) in
  let w' := snd (fire p (snd (setItemAsync k v w))) in
  st w' = snd (setItemSync k v (st w)) /\
  (fst (setItemSync k v (st w)) = Ret tt -> outcome p w' = Some (Fulfilled UOk)).
Proof.
  intros L p w'.
  assert (S : setItemSync k v (st w) =
    (copy <- clone v;;
     modify (fun s => set_storage (JsMap.set k copy (storage (this s))) s))
      (st w)).
  { unfold setItemSync. unfold bind at 1. by rewrite checkStorage_live. }
  rewrite S. unfold w', p, setItemAsync.
  erewrite async_fire; [|reflexivity].
  rewrite async_spec. cbn [fst snd]. rewrite outcome_last.
  rewrite timerCallback_run, preempted_live by done.
  cbn [wellFormed resolve reject isSet xorb action st result].
  destruct ((copy <- clone v;;
             modify (fun s => set_storage
                        (JsMap.set k copy (storage (this s))) s)) (st w))
    as [[[]|e] s1]; done.
Qed.

Lemma getItemAsync_as_sync w k r :
  deleted w = false ->
  fst (getItemSync k (st w)) = Ret r ->
  let p := fst (getItemAsync k w) in
  st (snd (getItemAsync k w)) = snd (getItemSync k (st w)) /\
  outcome p (snd (fire p (snd (getItemAsync k w)))) =
    Some (Fulfilled (UVal r)).
Proof.
  intros L R p.
  assert (G : getItemSync k (st w) =
              clone (JsMap.get k (storage (this (st w)))) (st w)).
  { unfold getItemSync, bind, gets. by rewrite checkStorage_live. }
  rewrite G in *.
  destruct (clone (JsMap.get k (storage (this (st w)))) (st w))
    as [[copy|e] s1] eqn:E; [|done].
  cbn [fst snd] in *. injection R as ->.
  assert (L1 : isDeleted (this s1) = false).
  { unfold clone in E. destruct (structuredClone _ _) as [[? ?]|?];
      [|done]. by injection E as _ <-. }
  assert (B :
    (stored <- gets (fun s => JsMap.get k (storage (this s))) ;;
     copy <- clone stored ;;
     ret {| resolve := Some (UVal copy); reject := None; action := None;
            delay := None |}) (st w) =
    (Ret {| resolve := Some (UVal r); reject := None; action := None;
            delay := None |}, s1)).
  { unfold bind, gets. by rewrite E. }
  unfold p, getItemAsync.
  rewrite (async_fire _ _ _ _ B), async_spec, B.
  cbn [fst snd st]. rewrite outcome_last.
  by rewrite timerCallback_run, preempted_live.
Qed.

Lemma getItemSync_live s key d :
  isDeleted (this s) = false ->
  copyable (mem s) (JsMap.get key (storage (this s))) d ->
  exists r ext,
    getItemSync key s = (Ret r, {| mem := mem s ++ ext; this := this s |}) /\
    (forall l, r = VRef l -> length (mem s) <= l < length (mem s ++ ext)) /\
    (forall h3,
       agree_on (length (mem s)) (length (mem s ++ ext)) (mem s ++ ext) h3 ->
       copyable h3 r d).
Proof.
  intros L C.
  destruct (structuredClone_spec _ _ _ C) as (r & ext & E & F & R).
  exists r, ext. split; [|done].
  unfold getItemSync, bind, gets, clone.
  by rewrite checkStorage_live, E.
Qed.

(** A caller writes an object it holds: any address outside the stored
    copy. The stored copy is untouched. *)
Lemma write_outside lo hi (h : heap) l o :
  l < lo \/ hi <= l -> agree_on lo hi h (<[l := o]> h).
Proof. intros O l' Hl'. apply list_lookup_insert_ne. lia. Qed.

(** C7. On a live adapter [setItem(k, v)] with a copyable [v] stores a copy
    made of new objects, at the addresses from the old end of the heap to
    the new one. Take any later heap that still has those objects as they
    are: the heap right after the call, or one where the caller has
    changed [v] or values it got from [getItem], or has made new objects.
    There [getItem(k)] gives a value that unfolds to the tree [v] had when
    it was stored (deep-equal), that is a new reference when it is one (so
    not [v] itself, nor any value held before), and that is built of its
    own new objects only, so that writing to it changes nothing stored.
    The map is as [setItem] left it, and the stored objects are still in
    place for the next [getItem]. *)
Theorem round_trip (s0 : store) (k : string) (v : val) (d : data) :
  isDeleted (this s0) = false ->
  copyable (mem s0) v d ->
  exists s1,
    setItemSync k v s0 = (Ret tt, s1) /\
    forall h2,
      agree_on (length (mem s0)) (length (mem s1)) (mem s1) h2 ->
      exists r s3,
        getItemSync k {| mem := h2; this := this s1 |} = (Ret r, s3) /\
        copyable (mem s3) r d /\
        (forall l, r = VRef l -> length h2 <= l) /\
        (forall l, v = VRef l -> r <> v) /\
        (forall h3,
           agree_on (length h2) (length (mem s3)) (mem s3) h3 ->
           copyable h3 r d) /\
        this s3 = this s1 /\
        agree_on (length (mem s0)) (length (mem s1)) (mem s1) (mem s3).
Proof.
  intros L C.
  destruct (setItemSync_live s0 k v d L C) as (copy & ext & E & F & R).
  eexists. split; [exact E|]. cbn [set_storage mem this storage].
  intros h2 A.
  set (s2 := {| mem := h2;
                this := {| storageName := storageName (this s0);
                           isDeleted := isDeleted (this s0);
                           storage := JsMap.set k copy (storage (this s0)) |} |}).
  assert (C2 : copyable (mem s2) (JsMap.get k (storage (this s2))) d).
  { cbn [s2 mem this storage]. rewrite get_set. by apply R. }
  destruct (getItemSync_live s2 k d L C2) as (r & ext2 & E2 & F2 & R2).
  exists r. eexists. split; [exact E2|]. cbn [mem this s2] in *.
  split; [apply R2, agree_on_refl|].
  split; [intros l Hl; apply (F2 l Hl)|].
  split; [|split; [exact R2|split; [done|]]].
  - intros l -> ->.
    destruct (serialize_ref_inv _ _ _ _ C) as [Hl Hd].
    destruct (serialize_deep _ _ _ _ (R _ (agree_on_refl _ _ _)) Hd)
      as [l' ->].
    specialize (F l' eq_refl). specialize (F2 l eq_refl).
    eapply agree_on_length in A; lia.
  - intros l Hl. rewrite <- (A l Hl). apply lookup_app_l.
    destruct (lookup_lt_is_Some_2 (mem s0 ++ ext) l) as [o Ho]; [lia|].
    rewrite <- (A l Hl) in Ho. by eapply lookup_lt_Some.
Qed.

Lemma round_trip_witness :
  let h0 : heap := [OArray [VNum 40; VNum 42]; OObject [("c", VRef 0)]] in
  let s0 := {| mem := h0; this := newMockInterface |} in
  let v := VRef 1 in
  let d := DObject [("c", DArray [DNum 40; DNum 42])] in
  let s1 := snd (setItemSync "value" v s0) in
  let changed := <[0 := OArray [VNum 0]]> (mem s1) in
  (isDeleted (this s0) = false /\ copyable (mem s0) v d) /\
  serialize 5 changed v = Some (DObject [("c", DArray [DNum 0])]) /\
  exists r s3,
    getItemSync "value" {| mem := changed; this := this s1 |} = (Ret r, s3) /\
    copyable (mem s3) r d /\ r <> v.
Proof.
  intros h0 s0 v d s1 changed.
  assert (L : isDeleted (this s0) = false) by reflexivity.
  assert (C : copyable (mem s0) v d) by reflexivity.
  split; [split; [exact L|exact C]|]. split; [reflexivity|].
  destruct (round_trip s0 "value" v d L C) as (s1' & E & G).
  assert (Es : s1' = s1) by (unfold s1; rewrite E; reflexivity).
  rewrite Es in G.
  destruct (G changed) as (r & s3 & E3 & C3 & _ & N3 & _).
  - apply write_outside. left. vm_compute. lia.
  - exists r, s3. split; [exact E3|]. split; [exact C3|].
    exact (N3 1 eq_refl).
Defined.

End Contract.

(** ** What the methods do beyond the specification *)

Module Behaviour.
Import Values ValuesFacts JsMapFacts Mock MockFacts Contract Observe.

(** *** Properties that every run keeps *)

Lemma keeping_ret {A} P (a : A) : keeping P (ret a).
Proof. by intros s. Qed.

Lemma keeping_gets {A} P (f : store -> A) : keeping P (gets f).
Proof. by intros s. Qed.

Lemma keeping_bind {A B} P (m : M store A) (f : A -> M store B) :
  keeping P m -> (forall a, keeping P (f a)) -> keeping P (bind m f).
Proof.
  intros Hm Hf s Hs. unfold bind. specialize (Hm s Hs).
  destruct (m s) as [[a|e] s1]; simpl in *; [by apply Hf|done].
Qed.

Lemma keeping_checkStorage P : keeping P checkStorage.
Proof. intros s Hs. unfold checkStorage. by destruct (isDeleted (this s)). Qed.

Section Keeping.
Variable P : store -> Prop.
Variable allowed : call -> Prop.

Hypothesis Kclone : forall v, keeping P (clone v).
Hypothesis Kname : forall n, keeping P (modify (set_storageName n)).
Hypothesis Kdelete : forall key,
  keeping P
    (modify (fun s => set_storage (JsMap.delete key (storage (this s))) s)).
Hypothesis Kclear :
  keeping P
    (modify (fun s => set_storage (JsMap.clear (storage (this s))) s)).
Hypothesis Kput : forall key value,
  keeping P
    (copy <- clone value ;;
     modify (fun s => set_storage (JsMap.set key copy (storage (this s))) s)).
Hypothesis Klatch :
  allowed DeleteStorage -> keeping P (modify (set_isDeleted true)).

Lemma keeping_wipe :
  allowed DeleteStorage ->
  keeping P
    (modify (fun s => set_storage (JsMap.clear (storage (this s))) s) ;;;
     modify (set_isDeleted true)).
Proof. intros A. apply keeping_bind; [done|]. intros _. by apply Klatch. Qed.

Lemma keeping_callSync c : allowed c -> keeping P (callSync c).
Proof.
  intros A.
  destruct c; unfold callSync, void, initSync, getItemSync, setItemSync,
    removeItemSync, clearSync, sizeSync, keySync, deleteStorageSync;
    repeat first
      [ apply keeping_ret | apply keeping_gets | apply keeping_checkStorage
      | apply Kclone | apply Kname | apply Kdelete | apply Kput
      | apply Kclear | by apply Klatch
      | apply keeping_bind; [|intros ?] ].
Qed.

Lemma keeping_callAsync c :
  allowed c ->
  exists body,
    callAsync c = async body /\ keeping P body /\
    forall s setup s', body s = (Ret setup, s') ->
      forall act, action setup = Some act -> keeping P act.
Proof.
  intros A.
  destruct c;
    (eexists; split; [reflexivity|]; split;
     [repeat first
        [ apply keeping_ret | apply keeping_gets | apply Kclone
        | apply keeping_bind; [|intros ?] ]|]);
    intros s setup s' E; unfold bind, gets, ret in E;
    try (unfold clone in E;
         destruct (structuredClone _ (mem s)) as [[? ?]|?]; [|done]);
    injection E as <- <-; intros act [= <-].
  - exact (Kname _).
  - exact (Kput key value).
  - exact (Kdelete key).
  - exact Kclear.
  - exact (keeping_wipe A).
Qed.

Lemma step_keeping w e :
  calls_of allowed [e] -> P (st w) -> tasks_keeping P w ->
  P (st (step w e)) /\ tasks_keeping P (step w e).
Proof.
  intros A%Forall_inv Hs Ht. destruct e as [c|c|i].
  - split; [|done]. cbn [step st]. by apply keeping_callSync.
  - destruct (keeping_callAsync c A) as (body & Eb & Hb & Ha).
    cbn [step]. rewrite Eb, async_spec. cbn [snd st tasks].
    split; [by apply Hb|]. apply Forall_app. split; [done|].
    constructor; [|constructor].
    destruct (body (st w)) as [[setup|e] s'] eqn:E; cbn [fst timer];
      [|by intros ? ? ?].
    intros setup' act [= <-]. by eapply Ha.
  - rewrite step_fire. unfold fire.
    destruct (tasks w !! i) as [[[setup|] r]|] eqn:Ei; [|done|done].
    pose proof (timerCallback_store setup (st w) r) as S.
    destruct (timerCallback setup (st w, r)) as [res [s' r']].
    cbn [fst snd st tasks] in *. split.
    + destruct S as [->|(act & Ea & ->)]; [done|].
      eapply (Forall_lookup_1 _ _ _ _ Ht Ei); [reflexivity|exact Ea|done].
    + apply Forall_insert; [done|]. by intros ? ? ?.
Qed.

Lemma exec_keeping es : forall w,
  calls_of allowed es -> P (st w) -> tasks_keeping P w ->
  P (st (exec es w)) /\ tasks_keeping P (exec es w).
Proof.
  induction es as [|e es IH]; intros w A Hs Ht; [done|].
  apply Forall_cons in A as [A1 A2]. rewrite exec_cons.
  destruct (step_keeping w e) as [Hs1 Ht1]; [by constructor|done|done|].
  by apply IH.
Qed.

Lemma reachable_keeping h es :
  calls_of allowed es -> P (st (initial h)) -> P (st (exec es (initial h))).
Proof. intros A Hs. apply exec_keeping; [done|done|constructor]. Qed.

End Keeping.

(** *** The latch is set by [deleteStorage] only *)

Lemma clone_this v s : this (snd (clone v s)) = this s.
Proof. unfold clone. by destruct (structuredClone v (mem s)) as [[? ?]|?]. Qed.

Lemma put_this key value s :
  isDeleted (this (snd ((copy <- clone value ;;
     modify (fun s => set_storage (JsMap.set key copy (storage (this s))) s))
     s))) = isDeleted (this s) /\
  storageName (this (snd ((copy <- clone value ;;
     modify (fun s => set_storage (JsMap.set key copy (storage (this s))) s))
     s))) = storageName (this s).
Proof.
  unfold bind, clone, modify.
  by destruct (structuredClone value (mem s)) as [[? ?]|?].
Qed.

(** X1. A run in which [deleteStorage] is never called, in either form,
    leaves the latch unset: nothing else deletes the storage. *)
Theorem live_without_deleteStorage (h : heap) (es : list event) :
  calls_of (fun c => c <> DeleteStorage) es ->
  deleted (exec es (initial h)) = false.
Proof.
  intros A.
  apply (reachable_keeping (fun s => isDeleted (this s) = false)
           (fun c => c <> DeleteStorage)); unfold keeping; try done.
  - intros v s Hs. by rewrite clone_this.
  - intros key value s Hs. by rewrite (proj1 (put_this key value s)).
Qed.

Lemma live_without_deleteStorage_witness :
  let es := [Sync (Init (Some "n")); Async (SetItem "a" (VNum 1)); Sync Clear;
             Fire 0; Async (RemoveItem "a"); Sync (GetItem "b"); Fire 1] in
  calls_of (fun c => c <> DeleteStorage) es /\
  deleted (exec es (initial [])) = false.
Proof.
  intros es.
  assert (A : calls_of (fun c => c <> DeleteStorage) es).
  { unfold es. repeat constructor; discriminate. }
  split; [exact A|]. exact (live_without_deleteStorage [] es A).
Defined.

(** *** The caller's objects and the adapter's *)

(** X2. The adapter never writes to an object of the caller: whatever is
    called and whichever timers fire, every object that was in the heap
    at the start is still there, unchanged. *)
Theorem caller_objects_untouched (h : heap) (es : list event) (l : loc) (o : obj) :
  h !! l = Some o ->
  mem (st (exec es (initial h))) !! l = Some o.
Proof.
  intros Hl.
  destruct (exec_ok es (initial h) (world_ok_initial h)) as (_ & E & _).
  by apply E.
Qed.

Lemma caller_objects_untouched_witness :
  let h : heap := [OArray [VNum 40; VNum 42]; OObject [("c", VRef 0)]] in
  let es := [Sync (SetItem "v" (VRef 1)); Sync (GetItem "v");
             Async (SetItem "w" (VRef 0)); Sync DeleteStorage; Fire 0] in
  h !! 1 = Some (OObject [("c", VRef 0)]) /\
  mem (st (exec es (initial h))) !! 1 = Some (OObject [("c", VRef 0)]).
Proof.
  intros h es. split; [reflexivity|].
  apply (caller_objects_untouched h es 1). reflexivity.
Defined.

Lemma private_put base key value :
  keeping (private base)
    (copy <- clone value ;;
     modify (fun s => set_storage (JsMap.set key copy (storage (this s))) s)).
Proof.
  intros s [Hb Hs]. unfold bind, clone, modify.
  destruct (structuredClone value (mem s)) as [[v' h']|e] eqn:E;
    [|by split].
  cbn [fst snd]. unfold private. cbn [set_storage mem this storage].
  unfold structuredClone in E.
  destruct (serialize _ (mem s) value) as [d|] eqn:C; [|done].
  destruct (structuredClone_spec _ _ _ C) as (v2 & ext & E2 & F & _).
  unfold structuredClone in E2. rewrite C in E2.
  injection E as E. rewrite E in E2. injection E2 as -> ->.
  split; [rewrite length_app; lia|].
  apply Forall_set.
  - eapply Forall_impl; [exact Hs|]. intros e He l Hl.
    specialize (He l Hl). rewrite length_app. lia.
  - intros l Hl. specialize (F l Hl). lia.
Qed.

Lemma private_clone base v : keeping (private base) (clone v).
Proof.
  intros s [Hb Hs]. unfold clone.
  destruct (structuredClone v (mem s)) as [[v' h']|e] eqn:E; [|by split].
  apply structuredClone_extends in E as [ext ->].
  unfold private. cbn [snd mem this]. split; [rewrite length_app; lia|].
  eapply Forall_impl; [exact Hs|]. intros e He l Hl.
  specialize (He l Hl). rewrite length_app. lia.
Qed.

Lemma reachable_private h es : private (length h) (st (exec es (initial h))).
Proof.
  apply (reachable_keeping (private (length h)) (fun _ => True)).
  - apply private_clone.
  - unfold keeping. intros n s Hs. exact Hs.
  - unfold keeping. intros key s [Hb Hs]. split; [done|].
    cbn [snd modify set_storage this storage mem]. by apply Forall_delete.
  - unfold keeping. intros s [Hb Hs]. split; [done|].
    cbn [snd modify set_storage this storage mem JsMap.clear]. constructor.
  - apply private_put.
  - unfold keeping. intros _ s Hs. exact Hs.
  - unfold calls_of. apply Forall_true. by intros [c|c|i].
  - split; [done|constructor].
Qed.

(** X3. The map only ever holds references that the adapter made itself:
    none is an object the caller had at the start, and a reference that
    [getItem] returns is new, so it is none of the stored ones either. *)
Theorem stored_references_private (h : heap) (es : list event) :
  let w := exec es (initial h) in
  (forall key v l,
     (key, v) ∈ entries w -> v = VRef l -> length h <= l) /\
  (forall key r s' l,
     getItemSync key (st w) = (Ret r, s') -> r = VRef l ->
     length (mem (st w)) <= l /\
     forall key' v, (key', v) ∈ entries w -> v <> VRef l).
Proof.
  intros w. destruct (reachable_private h es) as [Hb Hs]. fold w in Hb, Hs.
  split.
  - intros key v l Hin ->.
    apply (proj1 (Forall_forall _ _) Hs (key, VRef l) Hin l eq_refl).
  - intros key r s' l E ->.
    assert (F : length (mem (st w)) <= l).
    { unfold getItemSync, bind, gets, checkStorage, clone in E.
      destruct (isDeleted (this (st w))); [done|]. cbn in E.
      destruct (structuredClone _ (mem (st w))) as [[v' h']|e] eqn:Ec; [|done].
      injection E as -> _. unfold structuredClone in Ec.
      destruct (serialize _ (mem (st w)) _) as [d|] eqn:C; [|done].
      destruct (structuredClone_spec _ _ _ C) as (v2 & ext & E2 & F & _).
      unfold structuredClone in E2. rewrite C in E2.
      injection Ec as Ec. rewrite Ec in E2. injection E2 as <- _.
      specialize (F l eq_refl). lia. }
    split; [done|]. intros key' v Hin ->.
    pose proof (proj1 (Forall_forall _ _) Hs (key', VRef l) Hin l eq_refl).
    simpl in *. lia.
Qed.

Lemma stored_references_private_witness :
  let h : heap := [OArray [VNum 40; VNum 42]; OObject [("c", VRef 0)]] in
  let w := exec [Sync (SetItem "v" (VRef 1))] (initial h) in
  entries w = [("v", VRef 3)] /\
  fst (getItemSync "v" (st w)) = Ret (VRef 5) /\
  (2 <= 3) /\ (4 <= 5).
Proof.
  intros h w.
  destruct (stored_references_private h [Sync (SetItem "v" (VRef 1))])
    as [A B].
  split; [reflexivity|]. split; [reflexivity|]. split.
  - apply (A "v" (VRef 3) 3); [|reflexivity]. left.
  - apply (B "v" (VRef 5) (snd (getItemSync "v" (st w))) 5); reflexivity.
Defined.

(** *** The map, key by key *)

Lemma get_absent k (m : JsMap.t) : k ∉ JsMap.keys m -> JsMap.get k m = VUndefined.
Proof.
  unfold JsMap.keys. induction m as [|[k' v'] m IH]; csimpl; [done|].
  intros [N1 N2]%not_elem_of_cons. rewrite decide_False by done. auto.
Qed.

Lemma delete_absent k (m : JsMap.t) : k ∉ JsMap.keys m -> JsMap.delete k m = m.
Proof.
  unfold JsMap.keys, JsMap.delete. induction m as [|[k' v'] m IH]; csimpl; [done|].
  intros [N1 N2]%not_elem_of_cons. rewrite filter_cons. cbn [fst].
  rewrite decide_True by done. by rewrite IH.
Qed.

Lemma keys_delete_absent k (m : JsMap.t) : k ∉ JsMap.keys (JsMap.delete k m).
Proof. rewrite keys_delete. by intros [N _]%list_elem_of_filter. Qed.

Lemma get_delete_ne k k' (m : JsMap.t) :
  k' <> k -> JsMap.get k' (JsMap.delete k m) = JsMap.get k' m.
Proof.
  intros N. unfold JsMap.delete. induction m as [|[k2 v2] m IH]; [done|].
  rewrite filter_cons. cbn [fst JsMap.get].
  destruct (decide (k2 <> k)) as [N2|E]; cbn [JsMap.get].
  - by rewrite IH.
  - apply dec_stable in E. subst. by rewrite decide_False.
Qed.

Lemma get_set_ne k k' v (m : JsMap.t) :
  k' <> k -> JsMap.get k' (JsMap.set k v m) = JsMap.get k' m.
Proof.
  intros N. induction m as [|[k2 v2] m IH]; csimpl.
  - by rewrite decide_False.
  - destruct (decide (k = k2)) as [->|N2]; csimpl.
    + by rewrite !decide_False.
    + by rewrite IH.
Qed.

Lemma NoDup_set k v (m : JsMap.t) :
  NoDup (JsMap.keys m) -> NoDup (JsMap.keys (JsMap.set k v m)).
Proof.
  intros N. destruct (decide (k ∈ JsMap.keys m)) as [H|H].
  - by rewrite keys_set_old.
  - rewrite keys_set_new by done. apply NoDup_app. split; [done|].
    split; [|apply NoDup_singleton].
    intros x Hx ->%list_elem_of_singleton. done.
Qed.

Lemma length_set k v (m : JsMap.t) :
  length (JsMap.set k v m) =
  if decide (k ∈ JsMap.keys m) then length m else S (length m).
Proof.
  rewrite <- !(length_fmap fst). fold (JsMap.keys m).
  fold (JsMap.keys (JsMap.set k v m)).
  destruct (decide (k ∈ JsMap.keys m)) as [H|H].
  - by rewrite keys_set_old.
  - rewrite keys_set_new, length_app by done. simpl. lia.
Qed.

Lemma length_delete k (m : JsMap.t) :
  NoDup (JsMap.keys m) -> k ∈ JsMap.keys m ->
  S (length (JsMap.delete k m)) = length m.
Proof.
  unfold JsMap.keys, JsMap.delete. induction m as [|[k' v'] m IH]; csimpl.
  - by intros _ ?%elem_of_nil.
  - intros [N1 N2]%NoDup_cons H. rewrite filter_cons. cbn [fst].
    destruct (decide (k' <> k)) as [N|E].
    + apply elem_of_cons in H as [->|H]; [done|]. simpl. by rewrite IH.
    + apply dec_stable in E. subst.
      fold (JsMap.delete k m). by rewrite delete_absent.
Qed.

Lemma get_lookup (m : JsMap.t) i k v :
  NoDup (JsMap.keys m) -> m !! i = Some (k, v) -> JsMap.get k m = v.
Proof.
  unfold JsMap.keys. revert i. induction m as [|[k' v'] m IH]; intros i; [done|].
  csimpl. intros [N1 N2]%NoDup_cons E. destruct i as [|i]; simpl in E.
  - injection E as -> ->. by rewrite decide_True.
  - rewrite decide_False; [by eapply IH|].
    intros ->. apply N1. apply list_elem_of_fmap. exists (k', v).
    split; [done|]. by eapply list_elem_of_lookup_2.
Qed.

(** The keys of the map are all different, in every run. *)
Lemma reachable_keys_NoDup h es :
  NoDup (JsMap.keys (entries (exec es (initial h)))).
Proof.
  apply (reachable_keeping
           (fun s => NoDup (JsMap.keys (storage (this s)))) (fun _ => True));
    unfold keeping.
  - intros v s Hs. by rewrite clone_this.
  - intros n s Hs. exact Hs.
  - intros key s Hs. cbn [snd modify set_storage this storage].
    rewrite keys_delete. by apply NoDup_filter.
  - intros s Hs. constructor.
  - intros key value s Hs. unfold bind, clone, modify.
    destruct (structuredClone value (mem s)) as [[? ?]|?]; [|done].
    cbn [snd set_storage this storage]. by apply NoDup_set.
  - intros _ s Hs. exact Hs.
  - unfold calls_of. apply Forall_true. by intros [c|c|i].
  - constructor.
Qed.

Lemma store_eta (s : store) : {| mem := mem s; this := this s |} = s.
Proof. by destruct s. Qed.

Lemma this_eta (a : MockInterface) :
  {| storageName := storageName a; isDeleted := isDeleted a;
     storage := storage a |} = a.
Proof. by destruct a. Qed.

Lemma getItemSync_undefined s key :
  isDeleted (this s) = false ->
  JsMap.get key (storage (this s)) = VUndefined ->
  getItemSync key s = (Ret VUndefined, s).
Proof.
  intros L E. unfold getItemSync, bind, gets, clone.
  rewrite checkStorage_live, E by done. cbn. by rewrite store_eta.
Qed.

(** X4. A key that is not in the map is no error: on a live adapter
    [getItem] gives [undefined] for it and changes nothing, neither the
    adapter nor the heap; the asynchronous form is fulfilled with
    [undefined]. *)
Theorem getItem_absent (w : world) (key : string) :
  deleted w = false ->
  key ∉ JsMap.keys (entries w) ->
  getItemSync key (st w) = (Ret VUndefined, st w) /\
  (let p := fst (getItemAsync key w) in
   st (snd (getItemAsync key w)) = st w /\
   fire p (snd (getItemAsync key w)) =
     (Ret tt, {| st := st w;
                 tasks := tasks w ++
                   [{| timer := None;
                       result := Fulfilled (UVal VUndefined) |}] |})).
Proof.
  unfold deleted, entries. intros L N.
  pose proof (getItemSync_undefined _ key L (get_absent _ _ N)) as G.
  split; [done|].
  assert (B :
    (stored <- gets (fun s => JsMap.get key (storage (this s))) ;;
     copy <- clone stored ;;
     ret {| resolve := Some (UVal copy); reject := None; action := None;
            delay := None |}) (st w) =
    (Ret {| resolve := Some (UVal VUndefined); reject := None;
            action := None; delay := None |}, st w)).
  { unfold bind, gets, clone. rewrite (get_absent _ _ N). cbn.
    by rewrite store_eta. }
  unfold getItemAsync. rewrite (async_fire _ _ _ _ B), async_spec, B.
  cbn [fst snd st]. split; [done|].
  by rewrite timerCallback_run, preempted_live.
Qed.

Lemma getItem_absent_witness :
  let w := exec [Sync (SetItem "a" (VNum 1))] (initial []) in
  (deleted w = false /\ "b" ∉ JsMap.keys (entries w)) /\
  getItemSync "b" (st w) = (Ret VUndefined, st w).
Proof.
  intros w.
  assert (L : deleted w = false) by reflexivity.
  assert (N : "b" ∉ JsMap.keys (entries w)).
  { intros H. apply list_elem_of_singleton in H. discriminate H. }
  split; [split; [exact L|exact N]|].
  exact (proj1 (getItem_absent w "b" L N)).
Defined.

(** X5. [removeItem] of a key that is not in the map is no error and
    changes nothing at all; so removing a key twice is removing it once.
    After [removeItem(key)] the key is not in the map, whatever was there:
    [getItem(key)] gives [undefined]. *)
Theorem removeItem_idempotent (s : store) (key : string) :
  isDeleted (this s) = false ->
  let s1 := snd (removeItemSync key s) in
  fst (removeItemSync key s) = Ret tt /\
  (key ∉ JsMap.keys (storage (this s1))) /\
  getItemSync key s1 = (Ret VUndefined, s1) /\
  removeItemSync key s1 = (Ret tt, s1) /\
  (key ∉ JsMap.keys (storage (this s)) -> s1 = s).
Proof.
  intros L s1.
  assert (E : removeItemSync key s =
              (Ret tt, set_storage (JsMap.delete key (storage (this s))) s)).
  { unfold removeItemSync, bind, modify. by rewrite checkStorage_live. }
  unfold s1. rewrite E. cbn [fst snd].
  set (s2 := set_storage (JsMap.delete key (storage (this s))) s).
  assert (L2 : isDeleted (this s2) = false) by done.
  assert (N2 : key ∉ JsMap.keys (storage (this s2)))
    by apply keys_delete_absent.
  split; [done|]. split; [done|]. split; [|split].
  - apply getItemSync_undefined; [done|]. by apply get_absent.
  - unfold removeItemSync, bind, modify. rewrite checkStorage_live by done.
    cbn [fst snd]. f_equal. unfold set_storage.
    rewrite delete_absent by done. by rewrite this_eta, store_eta.
  - intros N. unfold s2, set_storage.
    rewrite delete_absent by done. by rewrite this_eta, store_eta.
Qed.

Lemma removeItem_idempotent_witness :
  let s := st (exec [Sync (SetItem "a" (VNum 1)); Sync (SetItem "b" VNull)]
                 (initial [])) in
  isDeleted (this s) = false /\
  storage (this (snd (removeItemSync "a" s))) = [("b", VNull)] /\
  removeItemSync "a" (snd (removeItemSync "a" s)) =
    (Ret tt, snd (removeItemSync "a" s)) /\
  snd (removeItemSync "c" s) = s.
Proof.
  intros s.
  assert (L : isDeleted (this s) = false) by reflexivity.
  destruct (removeItem_idempotent s "a" L) as (_ & _ & _ & A & _).
  destruct (removeItem_idempotent s "c" L) as (_ & _ & _ & _ & C).
  split; [exact L|]. split; [reflexivity|]. split; [exact A|].
  apply C. intros H.
  repeat (apply elem_of_cons in H as [H|H]; [discriminate H|]).
  apply elem_of_nil in H. exact H.
Defined.

Lemma readItem_live s key d :
  isDeleted (this s) = false ->
  copyable (mem s) (JsMap.get key (storage (this s))) d ->
  readItem key s = Ret d.
Proof.
  intros L C. unfold readItem.
  destruct (getItemSync_live s key d L C) as (r & ext & -> & _ & R).
  cbn [mem]. specialize (R _ (agree_on_refl _ _ _)).
  unfold copyable in R. by rewrite R.
Qed.

(** X6. Writing one key leaves the others as they are: after
    [setItem(key, v)], whether it succeeds or raises, and after
    [removeItem(key)], [getItem] of any other key gives a value deep-equal
    to the one it gave before. *)
Theorem other_keys_untouched (h : heap) (es : list event)
    (key other : string) (v : val) :
  let w := exec es (initial h) in
  deleted w = false ->
  other <> key ->
  readItem other (snd (setItemSync key v (st w))) = readItem other (st w) /\
  readItem other (snd (removeItemSync key (st w))) = readItem other (st w).
Proof.
  intros w L N. unfold deleted in L.
  destruct (store_ok_get other _ (proj1 (reachable_ok h es))) as [d C].
  fold w in C. rewrite (readItem_live _ _ d L C).
  split.
  - unfold setItemSync, bind, clone, modify.
    rewrite checkStorage_live by done.
    destruct (structuredClone v (mem (st w))) as [[copy h']|e] eqn:E.
    + apply structuredClone_extends in E as [ext ->]. cbn [fst snd].
      apply readItem_live; [done|].
      cbn [set_storage mem this storage]. rewrite get_set_ne by done.
      by apply copyable_app.
    + cbn [fst snd]. by apply readItem_live.
  - unfold removeItemSync, bind, modify. rewrite checkStorage_live by done.
    cbn [fst snd]. apply readItem_live; [done|].
    cbn [set_storage mem this storage]. by rewrite get_delete_ne.
Qed.

Lemma other_keys_untouched_witness :
  let h : heap := [OArray [VNum 1]] in
  let es := [Sync (SetItem "a" (VRef 0)); Sync (SetItem "b" (VNum 2))] in
  let w := exec es (initial h) in
  (deleted w = false /\ "a" <> "b") /\
  readItem "a" (st w) = Ret (DArray [DNum 1]) /\
  readItem "a" (snd (setItemSync "b" (VFunction "f") (st w))) =
    Ret (DArray [DNum 1]) /\
  readItem "a" (snd (removeItemSync "b" (st w))) = Ret (DArray [DNum 1]).
Proof.
  intros h es w.
  assert (L : deleted w = false) by reflexivity.
  assert (N : "a" <> "b") by discriminate.
  destruct (other_keys_untouched h es "b" "a" (VFunction "f") L N) as [A B].
  assert (R : readItem "a" (st w) = Ret (DArray [DNum 1])) by reflexivity.
  split; [split; [exact L|exact N]|]. split; [exact R|].
  split; [rewrite <- R; exact A|rewrite <- R; exact B].
Defined.

(** X7. How the answer of [size()] moves on a live adapter: after
    [setItem] of a copyable value it is one more if the key is new and the
    same if the key is there; after [removeItem] it is one less if the key
    is there and the same if it is not. *)
Theorem size_bookkeeping (h : heap) (es : list event) (key : string) :
  let w := exec es (initial h) in
  deleted w = false ->
  exists n,
    sizeSync (st w) = (Ret n, st w) /\
    (forall v d, copyable (mem (st w)) v d ->
       let w' := step w (Sync (SetItem key v)) in
       sizeSync (st w') =
       (Ret (n + if decide (key ∈ JsMap.keys (entries w)) then 0 else 1)%Z,
        st w')) /\
    (let w' := step w (Sync (RemoveItem key)) in
     sizeSync (st w') =
     (Ret (n - if decide (key ∈ JsMap.keys (entries w)) then 1 else 0)%Z,
      st w')).
Proof.
  intros w L. exists (JsMap.size (entries w)).
  split; [by apply sizeSync_live|]. split.
  - intros v d C w'.
    destruct (step_setItem_live w key v d L C) as (copy & ext & E).
    fold w' in E. rewrite sizeSync_live by (by rewrite E).
    do 2 f_equal. rewrite E. cbn [set_storage this storage].
    unfold JsMap.size. rewrite length_set.
    destruct (decide (key ∈ JsMap.keys (entries w))); lia.
  - intros w'. pose proof (step_removeItem_live w key L) as E.
    fold w' in E. rewrite sizeSync_live by (by rewrite E).
    do 2 f_equal. rewrite E. cbn [set_storage this storage].
    unfold JsMap.size.
    destruct (decide (key ∈ JsMap.keys (entries w))) as [H|H].
    + pose proof (length_delete key (entries w)
                    (reachable_keys_NoDup h es) H). lia.
    + rewrite delete_absent by done. lia.
Qed.

Lemma size_bookkeeping_witness :
  let es := [Sync (SetItem "a" (VNum 1)); Sync (SetItem "b" VNull)] in
  let w := exec es (initial []) in
  deleted w = false /\
  fst (sizeSync (st w)) = Ret 2%Z /\
  fst (sizeSync (st (step w (Sync (SetItem "a" (VNum 5)))))) = Ret 2%Z /\
  fst (sizeSync (st (step w (Sync (SetItem "c" (VNum 5)))))) = Ret 3%Z /\
  fst (sizeSync (st (step w (Sync (RemoveItem "a"))))) = Ret 1%Z /\
  fst (sizeSync (st (step w (Sync (RemoveItem "c"))))) = Ret 2%Z.
Proof.
  intros es w.
  assert (L : deleted w = false) by reflexivity.
  destruct (size_bookkeeping [] es "a" L) as (na & Na & Sa & Ra).
  destruct (size_bookkeeping [] es "c" L) as (nc & Nc & Sc & Rc).
  assert (Ea : Ret na = Ret 2%Z) by exact (eq_sym (f_equal fst Na)).
  assert (Ec : Ret nc = Ret 2%Z) by exact (eq_sym (f_equal fst Nc)).
  injection Ea as ->. injection Ec as ->.
  split; [exact L|]. split; [exact (f_equal fst Na)|].
  split; [exact (f_equal fst (Sa (VNum 5) (DNum 5) eq_refl))|].
  split; [exact (f_equal fst (Sc (VNum 5) (DNum 5) eq_refl))|].
  split; [exact (f_equal fst Ra)|exact (f_equal fst Rc)].
Defined.

(** X8. [clear] on a live adapter empties the map and touches nothing
    else: the name, the latch and the heap stay. Afterwards [size] is 0,
    every [getItem] and every [keyAt] gives [undefined], and the adapter
    still takes a [setItem]. *)
Theorem clear_keeps_identity (s : store) :
  isDeleted (this s) = false ->
  let s1 := snd (clearSync s) in
  fst (clearSync s) = Ret tt /\
  storageName (this s1) = storageName (this s) /\
  isDeleted (this s1) = false /\
  mem s1 = mem s /\
  sizeSync s1 = (Ret 0%Z, s1) /\
  (forall key, getItemSync key s1 = (Ret VUndefined, s1)) /\
  (forall index, keySync index s1 = (Ret VUndefined, s1)) /\
  (forall key v d, copyable (mem s) v d ->
     fst (setItemSync key v s1) = Ret tt /\
     JsMap.keys (storage (this (snd (setItemSync key v s1)))) = [key]).
Proof.
  intros L s1.
  assert (E : clearSync s = (Ret tt, set_storage [] s)).
  { unfold clearSync, bind, modify. by rewrite checkStorage_live. }
  unfold s1. rewrite E. cbn [fst snd].
  set (s2 := set_storage [] s).
  assert (L2 : isDeleted (this s2) = false) by done.
  repeat (split; [done|]).
  split; [|split; [|split]].
  - unfold sizeSync, bind, gets. by rewrite checkStorage_live.
  - intros key. by apply getItemSync_undefined.
  - intros index. rewrite keySync_live by done.
    unfold keyOf, JsMap.index. cbn [s2 set_storage this storage].
    destruct (decide (0 <= index)%Z); [|done]. by rewrite lookup_nil.
  - intros key v d C.
    destruct (setItemSync_live s2 key v d L2 C) as (copy & ext & -> & _).
    done.
Qed.

Lemma clear_keeps_identity_witness :
  let s := st (exec [Sync (Init (Some "n")); Sync (SetItem "a" (VNum 1))]
                 (initial [])) in
  let s1 := snd (clearSync s) in
  isDeleted (this s) = false /\
  storageName (this s1) = "n" /\
  sizeSync s1 = (Ret 0%Z, s1) /\
  getItemSync "a" s1 = (Ret VUndefined, s1).
Proof.
  intros s s1.
  assert (L : isDeleted (this s) = false) by reflexivity.
  destruct (clear_keeps_identity s L) as (_ & N & _ & _ & Z & G & _).
  split; [exact L|]. split; [exact N|]. split; [exact Z|]. exact (G "a").
Defined.

(** X9. [keyAt] and [size] make an iterator: on a live adapter [keyAt(i)]
    for [i] below [size()] is the key of the [i]-th entry, [getItem] of
    that key reads that very entry, and no other index gives the same
    key. *)
Theorem keyAt_enumerates (h : heap) (es : list event) (i : nat)
    (key : string) (v : val) :
  let w := exec es (initial h) in
  deleted w = false ->
  entries w !! i = Some (key, v) ->
  (Z.of_nat i < JsMap.size (entries w))%Z /\
  keySync (Z.of_nat i) (st w) = (Ret (VStr key), st w) /\
  JsMap.get key (entries w) = v /\
  forall j, keySync j (st w) = (Ret (VStr key), st w) -> j = Z.of_nat i.
Proof.
  intros w L E. unfold deleted in L.
  pose proof (reachable_keys_NoDup h es) as N. fold w in N.
  split; [apply lookup_lt_Some in E; unfold JsMap.size; lia|].
  assert (K : forall j k,
            keySync j (st w) = (Ret (VStr k), st w) ->
            exists n, j = Z.of_nat n /\ JsMap.keys (entries w) !! n = Some k).
  { intros j k. rewrite keySync_live by done. unfold keyOf, JsMap.index.
    intros [= H]. destruct (decide (0 <= j)%Z) as [P|]; [|done].
    fold (entries w) in H.
    destruct (entries w !! Z.to_nat j) as [[k2 v2]|] eqn:Ej; [|done].
    injection H as ->. exists (Z.to_nat j). split; [lia|].
    unfold JsMap.keys. by rewrite list_lookup_fmap, Ej. }
  split; [|split].
  - rewrite keySync_live by done. unfold keyOf, JsMap.index.
    rewrite decide_True by lia. rewrite Nat2Z.id.
    fold (entries w). by rewrite E.
  - by eapply get_lookup.
  - intros j Hj. destruct (K j key Hj) as (n & -> & Hn). f_equal.
    eapply NoDup_lookup; [exact N|exact Hn|].
    unfold JsMap.keys. by rewrite list_lookup_fmap, E.
Qed.

Lemma keyAt_enumerates_witness :
  let es := [Sync (SetItem "a" (VNum 1)); Sync (SetItem "b" VNull);
             Sync (RemoveItem "a"); Sync (SetItem "a" (VNum 3))] in
  let w := exec es (initial []) in
  (deleted w = false /\ entries w !! 1%nat = Some ("a", VNum 3)) /\
  keySync 1 (st w) = (Ret (VStr "a"), st w) /\
  JsMap.get "a" (entries w) = VNum 3.
Proof.
  intros es w.
  assert (L : deleted w = false) by reflexivity.
  assert (E : entries w !! 1%nat = Some ("a", VNum 3)) by reflexivity.
  destruct (keyAt_enumerates [] es 1 "a" (VNum 3) L E) as (_ & A & B & _).
  split; [split; [exact L|exact E]|]. split; [exact A|exact B].
Defined.

(** *** Promises *)

(** A task whose timer is gone is never touched again. *)
Lemma step_idle_task p w e r :
  tasks w !! p = Some {| timer := None; result := r |} ->
  tasks (step w e) !! p = Some {| timer := None; result := r |}.
Proof.
  intros E.
  assert (C : e = Fire p \/ e <> Fire p).
  { destruct e as [c|c|i]; [by right|by right|].
    destruct (decide (i = p)) as [->|N]; [by left|right; congruence]. }
  destruct C as [->|N].
  - rewrite step_fire. unfold fire. by rewrite E.
  - rewrite step_other_task; [done| |done]. by eapply lookup_lt_Some.
Qed.

Lemma exec_idle_task p es : forall w r,
  tasks w !! p = Some {| timer := None; result := r |} ->
  tasks (exec es w) !! p = Some {| timer := None; result := r |}.
Proof.
  induction es as [|e es IH]; intros w r E; [done|].
  rewrite exec_cons. by apply IH, step_idle_task.
Qed.

Lemma fired_task p w setup r :
  tasks w !! p = Some {| timer := Some setup; result := r |} ->
  tasks (snd (fire p w)) !! p =
  Some {| timer := None;
          result := snd (snd (timerCallback setup (st w, r))) |}.
Proof.
  intros E. rewrite (fire_armed _ _ _ _ E). cbn [snd tasks].
  apply list_lookup_insert_eq. by eapply lookup_lt_Some.
Qed.

(** The descriptor of a writing method: [resolve] with [Ok], and an
    action that does what the synchronous form does after its latch
    test. *)
Lemma write_descriptor c :
  isWrite c = true ->
  exists act,
    (forall w,
       st (snd (callAsync c w)) = st w /\
       tasks (snd (callAsync c w)) !! fst (callAsync c w) =
       Some {| timer := Some {| resolve := Some UOk; reject := None;
                                action := Some act; delay := None |};
               result := Pending |}) /\
    (forall s, isDeleted (this s) = false ->
       snd (callSync c s) = snd (act s) /\
       ((exists r, fst (callSync c s) = Ret r) <-> fst (act s) = Ret tt) /\
       (forall e, fst (callSync c s) = Throw e <-> fst (act s) = Throw e)).
Proof.
  intros W.
  destruct c as [name|key|key value|key| | |index| ]; try discriminate W;
    (eexists; split;
     [intros w; unfold callAsync, initAsync, setItemAsync, removeItemAsync,
        clearAsync, deleteStorageAsync;
      rewrite async_spec; cbn [fst snd st tasks ret]; split; [done|];
      by rewrite lookup_app_r, Nat.sub_diag by lia
     |intros s L; cbn [callSync]]).
  - cbn. split; [done|]. split; [split; eauto|]. intros e'. by split.
  - assert (S : void (setItemSync key value) s =
      match (copy <- clone value;;
             modify (fun s0 => set_storage
                 (JsMap.set key copy (storage (this s0))) s0)) s with
      | (Ret _, s') => (Ret (UVal VUndefined), s')
      | (Throw e, s') => (Throw e, s')
      end).
    { unfold void, setItemSync, bind. by rewrite checkStorage_live. }
    rewrite S.
    destruct ((copy <- clone value;;
               modify (fun s0 => set_storage
                   (JsMap.set key copy (storage (this s0))) s0)) s)
      as [[[]|e] s1]; cbn.
    + split; [done|]. split; [split; eauto|]. intros e'. by split.
    + split; [done|]. split; [split; [by intros [? ?]|done]|].
      intros e'. split; by intros [= ->].
  - unfold void, removeItemSync, clearSync, deleteStorageSync, bind, modify.
    rewrite checkStorage_live by done. cbn.
    split; [done|]. split; [split; eauto|]. intros e'. by split.
  - unfold void, removeItemSync, clearSync, deleteStorageSync, bind, modify.
    rewrite checkStorage_live by done. cbn.
    split; [done|]. split; [split; eauto|]. intros e'. by split.
  - unfold void, removeItemSync, clearSync, deleteStorageSync, bind, modify.
    rewrite checkStorage_live by done. cbn.
    split; [done|]. split; [split; eauto|]. intros e'. by split.
Qed.

(** X11. The asynchronous form of a writing method ([initialize],
    [setItem], [removeItem], [clear], [deleteStorage]) changes nothing
    when it is called. When its timer fires on a live adapter, it does to
    the store of that moment what the synchronous form would do: a value
    given to [setItemAsync] is copied then, not at the call. If the
    synchronous form would return, the promise is fulfilled with [Ok]; if
    it would raise, the callback raises that error and the promise stays
    pending for good. *)
Theorem async_write_at_fire (c : call) (w w2 : world) :
  isWrite c = true ->
  let p := fst (callAsync c w) in
  tasks w2 !! p = tasks (snd (callAsync c w)) !! p ->
  deleted w2 = false ->
  st (snd (callAsync c w)) = st w /\
  st (snd (fire p w2)) = snd (callSync c (st w2)) /\
  ((exists r, fst (callSync c (st w2)) = Ret r) ->
     fst (fire p w2) = Ret tt /\
     outcome p (snd (fire p w2)) = Some (Fulfilled UOk)) /\
  (forall e, fst (callSync c (st w2)) = Throw e ->
     fst (fire p w2) = Throw e /\
     forall later, outcome p (exec later (snd (fire p w2))) = Some Pending).
Proof.
  intros W p E L. unfold deleted in L.
  destruct (write_descriptor c W) as (act & D & S).
  destruct (D w) as [D1 D2]. fold p in D2. rewrite D2 in E.
  destruct (S (st w2) L) as (S1 & S2 & S3).
  split; [done|].
  pose proof (fired_task _ _ _ _ E) as T.
  rewrite (fire_armed _ _ _ _ E) in *.
  rewrite timerCallback_run, preempted_live in * by done.
  cbn [wellFormed resolve reject isSet xorb action fst snd st] in *.
  rewrite S1. split; [by destruct (act (st w2)) as [[[]|e] s1]|].
  split.
  - intros R. apply S2 in R.
    destruct (act (st w2)) as [[[]|e] s1]; [|done].
    split; [done|]. unfold outcome. cbn [fst snd tasks] in *. by rewrite T.
  - intros e R. apply S3 in R.
    destruct (act (st w2)) as [[[]|e'] s1]; [done|].
    cbn [fst snd] in *. injection R as ->. split; [done|].
    intros later. unfold outcome.
    by rewrite (exec_idle_task p later _ Pending T).
Qed.

Lemma async_write_at_fire_witness :
  let w := initial [OArray [VNum 1]] in
  let w2 := write 0 (OArray [VNum 2]) (snd (callAsync (SetItem "a" (VRef 0)) w)) in
  let w3 := snd (callAsync (SetItem "f" (VFunction "g")) w) in
  entries w2 = [] /\
  readItem "a" (st (snd (fire 0 w2))) = Ret (DArray [DNum 2]) /\
  outcome 0 (snd (fire 0 w2)) = Some (Fulfilled UOk) /\
  fst (fire 0 w3) = Throw DataCloneError /\
  outcome 0 (exec [Fire 0; Sync Clear] (snd (fire 0 w3))) = Some Pending.
Proof.
  intros w w2 w3.
  destruct (async_write_at_fire (SetItem "a" (VRef 0)) w w2 eq_refl
              eq_refl eq_refl) as (_ & A & B & _).
  destruct (async_write_at_fire (SetItem "f" (VFunction "g")) w w3 eq_refl
              eq_refl eq_refl) as (_ & _ & _ & C).
  assert (A' : st (snd (fire 0 w2)) =
               snd (callSync (SetItem "a" (VRef 0)) (st w2))) by exact A.
  split; [reflexivity|]. split; [rewrite A'; reflexivity|].
  split; [exact (proj2 (B (ex_intro _ _ eq_refl)))|].
  destruct (C DataCloneError eq_refl) as [C1 C2].
  split; [exact C1|exact (C2 [Fire 0; Sync Clear])].
Defined.

(** X12. [initialize] is the one method that the latch does not close in
    its synchronous form: on a deleted storage [initSync] still returns
    [Ok] and sets the name. [initAsync] is rejected with the deletion
    error there, and sets the name all the same. Neither unsets the
    latch. *)
Theorem init_after_deletion (w : world) (name : option string) :
  deleted w = true ->
  callSync (Init name) (st w) =
    (Ret UOk, set_storageName (default defaultStorageName name) (st w)) /\
  (let p := fst (initAsync name w) in
   let w' := snd (fire p (snd (initAsync name w))) in
   outcome p w' = Some (Rejected (UErr StorageDeletedError)) /\
   st w' = set_storageName (default defaultStorageName name) (st w) /\
   deleted w' = true).
Proof.
  unfold deleted. intros D. split; [done|].
  unfold initAsync. erewrite async_fire; [|reflexivity].
  rewrite async_spec. cbn [fst snd ret]. rewrite outcome_last.
  rewrite timerCallback_run, preempted_deleted by done. cbn.
  by rewrite D.
Qed.

Lemma init_after_deletion_witness :
  let w := exec [Sync (Init (Some "a")); Sync DeleteStorage] (initial []) in
  deleted w = true /\
  fst (callSync (Init (Some "b")) (st w)) = Ret UOk /\
  storageName (this (snd (callSync (Init (Some "b")) (st w)))) = "b" /\
  outcome 0 (exec [Async (Init None); Fire 0] w) =
    Some (Rejected (UErr StorageDeletedError)) /\
  storageName (this (st (exec [Async (Init None); Fire 0] w))) =
    defaultStorageName.
Proof.
  intros w.
  assert (D : deleted w = true) by reflexivity.
  destruct (init_after_deletion w (Some "b") D) as [A _].
  destruct (init_after_deletion w None D) as (_ & B & C & _).
  split; [exact D|]. split; [by rewrite A|]. split; [by rewrite A|].
  split; [exact B|]. change (exec [Async (Init None); Fire 0] w)
    with (snd (fire (fst (initAsync None w)) (snd (initAsync None w)))).
  by rewrite C.
Defined.

(** X13. A live adapter raises one error only: in its synchronous form
    every method returns, except [setItem] of a value that cannot be
    copied, which raises [DataCloneError] and changes nothing. *)
Theorem no_error_while_live (h : heap) (es : list event) (c : call) :
  let w := exec es (initial h) in
  deleted w = false ->
  (exists r s', callSync c (st w) = (Ret r, s')) \/
  (exists key v, c = SetItem key v /\
     callSync c (st w) = (Throw DataCloneError, st w) /\
     forall n, serialize n (mem (st w)) v = None).
Proof.
  intros w L. unfold deleted in L.
  destruct c as [name|key|key value|key| | |index| ]; cbn [callSync].
  - left. by do 2 eexists.
  - left. destruct (store_ok_get key _ (proj1 (reachable_ok h es))) as [d C].
    fold w in C.
    destruct (getItemSync_live (st w) key d L C) as (r & ext & E & _).
    unfold bind at 1. rewrite E. by do 2 eexists.
  - unfold void, setItemSync, bind, clone, modify.
    rewrite checkStorage_live by done.
    destruct (structuredClone value (mem (st w))) as [[copy h']|e] eqn:E.
    + left. by do 2 eexists.
    + right. exists key, value. split; [done|].
      apply structuredClone_throws in E as [-> N]. by split.
  - left. unfold void, removeItemSync, bind, modify.
    rewrite checkStorage_live by done. by do 2 eexists.
  - left. unfold void, clearSync, bind, modify.
    rewrite checkStorage_live by done. by do 2 eexists.
  - left. unfold sizeSync, bind, gets.
    rewrite checkStorage_live by done. by do 2 eexists.
  - left. unfold bind at 1. rewrite keySync_live by done. by do 2 eexists.
  - left. unfold void, deleteStorageSync, bind, modify.
    rewrite checkStorage_live by done. by do 2 eexists.
Qed.

Lemma no_error_while_live_witness :
  let w := exec [Sync (SetItem "a" (VNum 1)); Async DeleteStorage] (initial []) in
  deleted w = false /\
  fst (callSync (KeyAt 7) (st w)) = Ret (UVal VUndefined) /\
  callSync (SetItem "f" (VFunction "g")) (st w) = (Throw DataCloneError, st w).
Proof.
  intros w.
  assert (L : deleted w = false) by reflexivity.
  split; [exact L|]. split; [reflexivity|].
  destruct (no_error_while_live []
              [Sync (SetItem "a" (VNum 1)); Async DeleteStorage]
              (SetItem "f" (VFunction "g")) L)
    as [(r & s' & E)|(key & v & _ & E & _)].
  - discriminate E.
  - exact E.
Defined.

(** *** The earlier revision *)

(** X14. In the earlier revision [keyAt] had a bound: on a live adapter
    an index inside the map gave the key there, and any other index
    raised a [TypeError], with nothing changed. *)
Theorem earlier_keySync_bounds (s : store) (index : Z) :
  isDeleted (this s) = false ->
  ((0 <= index < JsMap.size (storage (this s)))%Z ->
     exists key v,
       storage (this s) !! Z.to_nat index = Some (key, v) /\
       Earlier.keySync index s = (Ret (VStr key), s)) /\
  ((index < 0 \/ JsMap.size (storage (this s)) <= index)%Z ->
     Earlier.keySync index s = (Throw TypeError, s)).
Proof.
  intros L.
  assert (E : Earlier.keySync index s =
    match JsMap.index (storage (this s)) index with
    | Some e => (Ret (VStr (fst e)), s)
    | None => (Throw TypeError, s)
    end).
  { unfold Earlier.keySync, Earlier.checkStorage, bind, gets. rewrite L.
    cbn. by destruct (JsMap.index _ index). }
  rewrite E. unfold JsMap.index, JsMap.size. split.
  - intros R. rewrite decide_True by lia.
    destruct (lookup_lt_is_Some_2 (storage (this s)) (Z.to_nat index))
      as [[key v] Hl]; [lia|].
    exists key, v. by rewrite Hl.
  - intros R. destruct (decide (0 <= index)%Z); [|done].
    rewrite lookup_ge_None_2; [done|lia].
Qed.

Lemma earlier_keySync_bounds_witness :
  let s := st (exec [Sync (SetItem "a" (VNum 1))] (initial [])) in
  isDeleted (this s) = false /\
  Earlier.keySync 0 s = (Ret (VStr "a"), s) /\
  Earlier.keySync 1 s = (Throw TypeError, s) /\
  Earlier.keySync (-1) s = (Throw TypeError, s).
Proof.
  intros s.
  assert (L : isDeleted (this s) = false) by reflexivity.
  split; [exact L|]. split; [reflexivity|]. split.
  - apply (proj2 (earlier_keySync_bounds s 1 L)). right. vm_compute.
    discriminate.
  - apply (proj2 (earlier_keySync_bounds s (-1) L)). left. reflexivity.
Defined.

(** X15. In the earlier revision the synchronous [deleteStorage] set the
    latch and left the map as it was: the entries stayed, out of reach
    behind the latch. A second call raised the error of that revision. *)
Theorem earlier_deleteStorageSync_keeps_map (s : store) :
  isDeleted (this s) = false ->
  let s1 := snd (Earlier.deleteStorageSync s) in
  fst (Earlier.deleteStorageSync s) = Ret tt /\
  isDeleted (this s1) = true /\
  storage (this s1) = storage (this s) /\
  mem s1 = mem s /\
  Earlier.deleteStorageSync s1 = (Throw (Error "Storage is deleted"), s1).
Proof.
  intros L s1. unfold s1, Earlier.deleteStorageSync, Earlier.checkStorage,
    bind, modify.
  rewrite L. cbn. done.
Qed.

Lemma earlier_deleteStorageSync_keeps_map_witness :
  let s := st (exec [Sync (SetItem "a" (VNum 1))] (initial [])) in
  isDeleted (this s) = false /\
  storage (this (snd (Earlier.deleteStorageSync s))) = [("a", VNum 1)] /\
  storage (this (snd (deleteStorageSync s))) = [].
Proof.
  intros s.
  assert (L : isDeleted (this s) = false) by reflexivity.
  destruct (earlier_deleteStorageSync_keeps_map s L) as (_ & _ & K & _).
  split; [exact L|]. split; [rewrite K; reflexivity|reflexivity].
Defined.

End Behaviour.
